(** * discord-player: the Player controller (src/unnamed/part_000)

    A shallow embedding of class [Player]: the registry [this.queues], the
    transport commands, the stream request of [_playYTDLStream] and the
    track advance of [_playTrack], followed by the properties of the
    specification that were checked against it.

    Conventions of the embedding.
    - Queue objects are shared between the registry and the closures that
      [_playTrack] and [_playYTDLStream] leave behind, so they live in a
      store and are named by their address; [this.queues] is a list of
      addresses, in array order.
    - Track objects are compared by identity ([===]); a track carries its
      object identity [oid].
    - A JavaScript number that the code divides ([percent / 200],
      [streamTime / 1000]) is an exact rational.
    - The voice connection and its dispatcher belong to discord.js; the
      model records every call the Player makes on them, and the signals
      they send back ([start], [finish], the one second timer) are steps
      of their own. [voiceConnection.dispatcher] is null until [play] is
      called on the connection and again once that dispatcher has
      finished; a command that dereferences it then throws a TypeError.
    - An array or a Track is held by value: a second holder of the same
      JavaScript object (an array given to [setQueue] twice, a Track
      played in two guilds) is not followed. *)

From Stdlib Require Import ZArith QArith Permutation.
From stdpp Require Import base option list strings.

Local Open Scope string_scope.
Local Open Scope list_scope.

(** ** JavaScript values held by a queue *)

Abbreviation Snowflake := string.
Abbreviation User := string.

Record Track := mkTrack {
  oid : nat;                    (* object identity *)
  url : string;
  requestedBy : option User     (* null until attributed *)
}.

Inductive value :=
| VUndefined
| VNull
| VTrack (t : Track).

(** [a === b] on these values: objects are equal when they are the same
    object. *)
Definition strict_eq (a b : value) : bool :=
  match a, b with
  | VUndefined, VUndefined => true
  | VNull, VNull => true
  | VTrack x, VTrack y => Nat.eqb (oid x) (oid y)
  | _, _ => false
  end.

(** Truthiness, as tested by [if (trackFound)] and [!track[0]]. *)
Definition truthy (v : value) : bool :=
  match v with VTrack _ => true | _ => false end.

Definition isTrack (v : value) : Prop :=
  match v with VTrack _ => True | _ => False end.

(** [arr[i]] for a JavaScript number [i] that is an integer: [undefined]
    outside [0 .. length-1]. *)
Definition js_index (arr : list value) (i : Z) : value :=
  if (i <? 0)%Z then VUndefined else default VUndefined (arr !! Z.to_nat i).

(** [arr.shift()]: the removed head ([undefined] on an empty array) and the
    array that remains. *)
Definition js_shift (arr : list value) : value * list value :=
  match arr with
  | [] => (VUndefined, [])
  | v :: rest => (v, rest)
  end.

(** [arr.find(f)]. *)
Definition js_find (f : value -> bool) (arr : list value) : value :=
  default VUndefined (List.find f arr).

(** ** Plain objects used as maps: [queue.filters], [newFilters] *)

(** The own properties of an object, in the order [Object.keys] lists
    them: the keys that are array indices first, in ascending order, then
    the other keys in the order they were created. *)
Fixpoint obj_get {A} (k : string) (o : list (string * A)) : option A :=
  match o with
  | [] => None
  | (k', v) :: o' => if String.eqb k k' then Some v else obj_get k o'
  end.

Definition digit (c : Ascii.ascii) : option N :=
  let n := Ascii.N_of_ascii c in
  if ((48 <=? n) && (n <=? 57))%N then Some (n - 48)%N else None.

Fixpoint parse_digits (s : string) (acc : N) : option N :=
  match s with
  | EmptyString => Some acc
  | String c s' =>
      match digit c with
      | Some d => parse_digits s' (acc * 10 + d)%N
      | None => None
      end
  end.

(** A key is an array index when it is the canonical decimal form of an
    integer from 0 to 2^32 - 2. *)
Definition array_index (k : string) : option N :=
  match k with
  | EmptyString => None
  | String c rest =>
      if (Ascii.N_of_ascii c =? 48)%N then
        match rest with EmptyString => Some 0%N | _ => None end
      else
        match parse_digits k 0 with
        | Some n => if (n <? 4294967295)%N then Some n else None
        | None => None
        end
  end.

Fixpoint obj_replace {A} (k : string) (v : A) (o : list (string * A)) : list (string * A) :=
  match o with
  | [] => []
  | (k', v') :: o' =>
      if String.eqb k k' then (k, v) :: o' else (k', v') :: obj_replace k v o'
  end.

(** A new array index goes after the smaller indices. *)
Fixpoint obj_insert {A} (n : N) (k : string) (v : A) (o : list (string * A)) : list (string * A) :=
  match o with
  | [] => [(k, v)]
  | (k', v') :: o' =>
      match array_index k' with
      | Some m =>
          if (m <? n)%N then (k', v') :: obj_insert n k v o' else (k, v) :: o
      | None => (k, v) :: o
      end
  end.

(** [o[k] = v] for a primitive [v] on a plain object: [__proto__] is the
    accessor inherited from [Object.prototype], whose setter ignores a
    primitive; every other key becomes or stays an own property. *)
Definition obj_set {A} (k : string) (v : A) (o : list (string * A)) : list (string * A) :=
  if String.eqb k "__proto__" then o
  else
    match obj_get k o with
    | Some _ => obj_replace k v o
    | None =>
        match array_index k with
        | Some n => obj_insert n k v o
        | None => o ++ [(k, v)]
        end
    end.

(** The table [filters] at the top of the file. *)
Definition filters_table : list (string * string) :=
  [ ("bassboost", "bass=g=20,dynaudnorm=f=200");
    ("8D", "apulsator=hz=0.128");
    ("vaporwave", "asetrate=441000*.8,aresample=44100,atempo=1.1");
    ("nightcore", "asetrate=441001*.25");
    ("phaser", "aphaser=in_gain=0.4");
    ("tremolo", "tremolo=f=6.5");
    ("reverse", "areverse");
    ("treble", "treble=g={GAIN}");
    ("normalizer", "dynaudnorm=f=150");
    ("surrounding", "surround");
    ("pulsator", "apulsator=hz=1");
    ("subboost", "asubboost") ].

(** What [Object.prototype] adds to the lookup [filters[filterName]] on
    the table, which is a plain object: its methods and [__proto__], each
    with the text that [join] prints for it. *)
Definition native_function (name : string) : string :=
  "function " ++ name ++ "() { [native code] }".

Definition Object_prototype : list (string * string) :=
  [ ("constructor", native_function "Object");
    ("__defineGetter__", native_function "__defineGetter__");
    ("__defineSetter__", native_function "__defineSetter__");
    ("hasOwnProperty", native_function "hasOwnProperty");
    ("__lookupGetter__", native_function "__lookupGetter__");
    ("__lookupSetter__", native_function "__lookupSetter__");
    ("isPrototypeOf", native_function "isPrototypeOf");
    ("propertyIsEnumerable", native_function "propertyIsEnumerable");
    ("toString", native_function "toString");
    ("valueOf", native_function "valueOf");
    ("__proto__", "[object Object]");
    ("toLocaleString", native_function "toLocaleString") ].

(** [filters[filterName]], as [join] prints it: [None] is [undefined]. *)
Definition filters_lookup (filterName : string) : option string :=
  match obj_get filterName filters_table with
  | Some s => Some s
  | None => obj_get filterName Object_prototype
  end.

Record PlayerOptions := mkOptions {
  leaveOnEnd : bool;
  leaveOnStop : bool;
  leaveOnEmpty : bool
}.

Definition defaultPlayerOptions : PlayerOptions :=
  {| leaveOnEnd := true; leaveOnStop := true; leaveOnEmpty := true |}.

(** ** Queue *)

Record Queue := mkQueue {
  guildID : Snowflake;
  voiceConnection : Snowflake;       (* the channel the connection is bound to *)
  playing : value;
  tracks : list value;
  filters : list (string * bool);
  volume : Z;
  paused : bool;
  stopped : bool;
  repeatMode : bool;
  lastSkipped : bool
}.

(** Modelled from the spec: class Queue (./Queue) is not part of the
    sources. A session starts with an empty pending sequence, no current
    track ("null only in the just-created state"), its flags off and the
    full volume of the range 0-100; [play] fills in the connection and the
    filter set. *)
Definition Queue_new (g : Snowflake) : Queue :=
  {| guildID := g; voiceConnection := ""; playing := VNull; tracks := [];
     filters := []; volume := 100; paused := false; stopped := false;
     repeatMode := false; lastSkipped := false |}.

Definition set_voiceConnection (c : Snowflake) (q : Queue) : Queue :=
  {| guildID := guildID q; voiceConnection := c; playing := playing q;
     tracks := tracks q; filters := filters q; volume := volume q;
     paused := paused q; stopped := stopped q; repeatMode := repeatMode q;
     lastSkipped := lastSkipped q |}.

Definition set_playing (v : value) (q : Queue) : Queue :=
  {| guildID := guildID q; voiceConnection := voiceConnection q; playing := v;
     tracks := tracks q; filters := filters q; volume := volume q;
     paused := paused q; stopped := stopped q; repeatMode := repeatMode q;
     lastSkipped := lastSkipped q |}.

Definition set_tracks (l : list value) (q : Queue) : Queue :=
  {| guildID := guildID q; voiceConnection := voiceConnection q;
     playing := playing q; tracks := l; filters := filters q;
     volume := volume q; paused := paused q; stopped := stopped q;
     repeatMode := repeatMode q; lastSkipped := lastSkipped q |}.

Definition set_filters (f : list (string * bool)) (q : Queue) : Queue :=
  {| guildID := guildID q; voiceConnection := voiceConnection q;
     playing := playing q; tracks := tracks q; filters := f;
     volume := volume q; paused := paused q; stopped := stopped q;
     repeatMode := repeatMode q; lastSkipped := lastSkipped q |}.

Definition set_volume (v : Z) (q : Queue) : Queue :=
  {| guildID := guildID q; voiceConnection := voiceConnection q;
     playing := playing q; tracks := tracks q; filters := filters q;
     volume := v; paused := paused q; stopped := stopped q;
     repeatMode := repeatMode q; lastSkipped := lastSkipped q |}.

Definition set_paused (b : bool) (q : Queue) : Queue :=
  {| guildID := guildID q; voiceConnection := voiceConnection q;
     playing := playing q; tracks := tracks q; filters := filters q;
     volume := volume q; paused := b; stopped := stopped q;
     repeatMode := repeatMode q; lastSkipped := lastSkipped q |}.

Definition set_stopped (b : bool) (q : Queue) : Queue :=
  {| guildID := guildID q; voiceConnection := voiceConnection q;
     playing := playing q; tracks := tracks q; filters := filters q;
     volume := volume q; paused := paused q; stopped := b;
     repeatMode := repeatMode q; lastSkipped := lastSkipped q |}.

Definition set_repeatMode (b : bool) (q : Queue) : Queue :=
  {| guildID := guildID q; voiceConnection := voiceConnection q;
     playing := playing q; tracks := tracks q; filters := filters q;
     volume := volume q; paused := paused q; stopped := stopped q;
     repeatMode := b; lastSkipped := lastSkipped q |}.

Definition set_lastSkipped (b : bool) (q : Queue) : Queue :=
  {| guildID := guildID q; voiceConnection := voiceConnection q;
     playing := playing q; tracks := tracks q; filters := filters q;
     volume := volume q; paused := paused q; stopped := stopped q;
     repeatMode := repeatMode q; lastSkipped := b |}.

(** ** What the Player sends out *)

(** [queue.emit(...)]. *)
Inductive Event :=
| EvTrackChanged (nowPlaying wasPlaying : value) (skipped repeat : bool)
| EvEnd
| EvStop
| EvChannelEmpty.

(** Calls on [queue.voiceConnection], its channel and its dispatcher. *)
Inductive Call :=
| CPlay (stream_url : string) (encoderArgs : list string) (seek : option Q)
| CSetVolumeLogarithmic (gain : Q)
| CPause
| CResume
| CEnd
| CLeave.

(** A pipeline asked for by [_playYTDLStream]: the ytdl stream, the queue
    object its closures hold, and the callback that [_playTrack] chained
    with [.then] on the returned promise. *)
Record Continuation := mkContinuation {
  k_firstPlay : bool;
  k_nowPlaying : value;
  k_wasPlaying : value
}.

Inductive Stage := Requested | Attached | Started | Finished.

Record Pipeline := mkPipeline {
  pl_queue : nat;
  pl_url : string;
  pl_encoderArgs : list string;
  pl_seek : option Q;
  pl_then : option Continuation;
  pl_stage : Stage
}.

Definition set_stage (s : Stage) (pl : Pipeline) : Pipeline :=
  {| pl_queue := pl_queue pl; pl_url := pl_url pl;
     pl_encoderArgs := pl_encoderArgs pl; pl_seek := pl_seek pl;
     pl_then := pl_then pl; pl_stage := s |}.

(** ** Player *)

Record Player := mkPlayer {
  store : list Queue;               (* every Queue object, by address *)
  queues : list nat;                (* this.queues *)
  options : PlayerOptions;          (* this.options *)
  emitted : list (nat * Event);     (* events emitted, oldest first *)
  calls : list (nat * Call);        (* transport calls, oldest first *)
  pipelines : list Pipeline;        (* pipelines requested so far *)
  nextOid : nat;                    (* identity of the next new Track *)
  dispatchers : list (Snowflake * nat)
    (* voiceConnection.dispatcher of each connection that has one: the
       pipeline whose stream it plays *)
}.

Definition Player_new (o : PlayerOptions) : Player :=
  {| store := []; queues := []; options := o; emitted := []; calls := [];
     pipelines := []; nextOid := 0; dispatchers := [] |}.

Definition with_store (s : list Queue) (p : Player) : Player :=
  {| store := s; queues := queues p; options := options p;
     emitted := emitted p; calls := calls p; pipelines := pipelines p;
     nextOid := nextOid p; dispatchers := dispatchers p |}.

Definition with_queues (l : list nat) (p : Player) : Player :=
  {| store := store p; queues := l; options := options p;
     emitted := emitted p; calls := calls p; pipelines := pipelines p;
     nextOid := nextOid p; dispatchers := dispatchers p |}.

Definition with_pipelines (l : list Pipeline) (p : Player) : Player :=
  {| store := store p; queues := queues p; options := options p;
     emitted := emitted p; calls := calls p; pipelines := l;
     nextOid := nextOid p; dispatchers := dispatchers p |}.

Definition with_nextOid (n : nat) (p : Player) : Player :=
  {| store := store p; queues := queues p; options := options p;
     emitted := emitted p; calls := calls p; pipelines := pipelines p;
     nextOid := n; dispatchers := dispatchers p |}.

Definition with_dispatchers (d : list (Snowflake * nat)) (p : Player) : Player :=
  {| store := store p; queues := queues p; options := options p;
     emitted := emitted p; calls := calls p; pipelines := pipelines p;
     nextOid := nextOid p; dispatchers := d |}.

Definition emit (a : nat) (e : Event) (p : Player) : Player :=
  {| store := store p; queues := queues p; options := options p;
     emitted := emitted p ++ [(a, e)]; calls := calls p;
     pipelines := pipelines p; nextOid := nextOid p;
     dispatchers := dispatchers p |}.

Definition call (a : nat) (c : Call) (p : Player) : Player :=
  {| store := store p; queues := queues p; options := options p;
     emitted := emitted p; calls := calls p ++ [(a, c)];
     pipelines := pipelines p; nextOid := nextOid p;
     dispatchers := dispatchers p |}.

(** Assignment to a field of the queue object at address [a]. *)
Definition update (a : nat) (f : Queue -> Queue) (p : Player) : Player :=
  match store p !! a with
  | Some q => with_store (<[a := f q]> (store p)) p
  | None => p
  end.

(** [g.guildID === guildID] for the queue object at an address. *)
Definition hasGuild (p : Player) (g : Snowflake) (a : nat) : bool :=
  match store p !! a with
  | Some q => String.eqb (guildID q) g
  | None => false
  end.

(** [this.queues.find((g) => g.guildID === guildID)]. *)
Definition findQueue (p : Player) (g : Snowflake) : option nat :=
  List.find (hasGuild p g) (queues p).

(** [this.queues = this.queues.filter((g) => g.guildID !== id)]. *)
Definition dropGuild (g : Snowflake) (p : Player) : Player :=
  with_queues (List.filter (fun a => negb (hasGuild p g a)) (queues p)) p.

(** ** The dispatcher of a connection *)

(** [queue.voiceConnection.dispatcher] for the queue object at [a]:
    [None] is null. Queue objects bound to the same channel share the
    connection and so its dispatcher. *)
Definition dispatcher (p : Player) (a : nat) : option nat :=
  match store p !! a with
  | Some q => obj_get (voiceConnection q) (dispatchers p)
  | None => None
  end.

(** The connection [c] gets the dispatcher [d], or loses the one it has. *)
Definition set_dispatcher (c : Snowflake) (d : option nat) (p : Player) : Player :=
  let others :=
    List.filter (fun kv => negb (String.eqb kv.1 c)) (dispatchers p) in
  with_dispatchers
    (match d with Some i => (c, i) :: others | None => others end) p.

(** [queue.voiceConnection.channel.leave()]: the connection is closed and
    its dispatcher with it. *)
Definition leave (a : nat) (p : Player) : Player :=
  match store p !! a with
  | Some q => set_dispatcher (voiceConnection q) None (call a CLeave p)
  | None => call a CLeave p
  end.

(** ** Outcome of a returned promise *)

Inductive Error :=
| JsError (message : string)       (* new Error(message) *)
| TypeError (message : string).

Definition SessionNotFound : Error := JsError "Not playing".
Definition TrackNotFound : Error := JsError "Track not found".

(** What reading [member] of a null dispatcher throws. *)
Definition NullDispatcher (member : string) : Error :=
  TypeError ("Cannot read property '" ++ member ++ "' of null").

Inductive Promise (A : Type) :=
| Resolved (a : A)
| Rejected (e : Error)
| Pending.                          (* never settled *)

Arguments Resolved {A} a.
Arguments Rejected {A} e.
Arguments Pending {A}.

(** ** Building a stream: [_playYTDLStream] *)

(** [encoderArgsFilters]: for every key of [queue.filters] whose value is
    true, [filters[filterName]] ([undefined] for a name that neither the
    table nor [Object.prototype] has). *)
Definition encoderArgsFilters (fs : list (string * bool)) : list (option string) :=
  (fun kv => filters_lookup kv.1) <$> List.filter snd fs.

(** [arr.join(sep)]: an undefined element is printed as the empty string. *)
Definition js_join (sep : string) (arr : list (option string)) : string :=
  String.concat sep (default "" <$> arr).

Definition encoderArgs_of (fs : list (string * bool)) : list string :=
  let chain := encoderArgsFilters fs in
  if (length chain <? 1)%nat then [] else ["-af"; js_join "," chain].

(** [updateFilter ? queue.voiceConnection.dispatcher.streamTime / 1000 :
    undefined], the first statement of the executor: [streamTime] is what
    the dispatcher reports, the outer [None] the TypeError thrown when
    there is no dispatcher to read it from. *)
Definition currentStreamTime (a : nat) (updateFilter : bool) (streamTime : Z)
    (p : Player) : option (option Q) :=
  if updateFilter then
    match dispatcher p a with
    | Some _ => Some (Some (streamTime # 1000)%Q)
    | None => None
    end
  else Some None.

(** [_playYTDLStream(queue, updateFilter)] up to the call of [setTimeout]:
    [k] is the callback the caller chains on the promise. When the
    dispatcher is missing for [updateFilter], or [queue.playing] is not a
    track ([queue.playing.url] throws), the executor throws: the promise
    is rejected and no stream is opened. *)
Definition _playYTDLStream (a : nat) (updateFilter : bool) (streamTime : Z)
    (k : option Continuation) (p : Player) : Player :=
  match store p !! a with
  | None => p
  | Some queue =>
      match currentStreamTime a updateFilter streamTime p with
      | None => p
      | Some seek =>
          let encoderArgs := encoderArgs_of (filters queue) in
          match playing queue with
          | VTrack t =>
              with_pipelines
                (pipelines p ++
                   [mkPipeline a (url t) encoderArgs seek k Requested]) p
          | _ => p
          end
      end
  end.

(** ** Advancing: [_playTrack] *)

Definition _playTrack (g : Snowflake) (firstPlay : bool) (p : Player) : Player :=
  match findQueue p g with
  | None => p                       (* queue is undefined: the body throws *)
  | Some a =>
      match store p !! a with
      | None => p
      | Some queue =>
          if (length (tracks queue) <? 2)%nat && negb firstPlay
             && negb (repeatMode queue)
          then
            let p1 :=
              if leaveOnEnd (options p) && negb (stopped queue)
              then leave a p else p in
            let p2 := dropGuild g p1 in
            if stopped queue then
              let p3 := if leaveOnStop (options p) then leave a p2 else p2 in
              emit a EvStop p3
            else emit a EvEnd p2
          else
            let wasPlaying := playing queue in
            let '(nowPlaying, rest) :=
              if repeatMode queue then (wasPlaying, tracks queue)
              else js_shift (tracks queue) in
            let p1 :=
              update a (fun q => set_lastSkipped false
                                   (set_tracks rest (set_playing nowPlaying q))) p in
            _playYTDLStream a false 0
              (Some (mkContinuation firstPlay nowPlaying wasPlaying)) p1
      end
  end.

(** ** Signals of the transport

    The dispatcher is discord.js code. As the specification describes it
    (4.3 and 5), [end()] force-terminates the pipeline and the [finish]
    signal that results is consumed by the advance logic afterwards: a
    signal reaches the Player as a step of its own, once the command that
    caused it has returned. *)

(** The callback of [setTimeout(..., 1000)] for pipeline [i]:
    [voiceConnection.play] gives the connection its dispatcher, which
    takes the place of the one it had. *)
Definition timer_fires (i : nat) (p : Player) : Player :=
  match pipelines p !! i with
  | Some pl =>
      match pl_stage pl, store p !! pl_queue pl with
      | Requested, Some queue =>
          let p1 := call (pl_queue pl)
                      (CPlay (pl_url pl) (pl_encoderArgs pl) (pl_seek pl)) p in
          let p1 := set_dispatcher (voiceConnection queue) (Some i) p1 in
          let p2 := call (pl_queue pl)
                      (CSetVolumeLogarithmic (volume queue # 200)%Q) p1 in
          with_pipelines (<[i := set_stage Attached pl]> (pipelines p2)) p2
      | _, _ => p
      end
  | None => p
  end.

(** The dispatcher of pipeline [i] emits [start]: the promise of
    [_playYTDLStream] resolves and the chained callback runs. *)
Definition dispatcher_start (i : nat) (p : Player) : Player :=
  match pipelines p !! i with
  | Some pl =>
      match pl_stage pl, store p !! pl_queue pl with
      | Attached, Some queue =>
          let p1 := with_pipelines (<[i := set_stage Started pl]> (pipelines p)) p in
          match pl_then pl with
          | Some k =>
              if negb (k_firstPlay k) then
                emit (pl_queue pl)
                  (EvTrackChanged (k_nowPlaying k) (k_wasPlaying k)
                     (lastSkipped queue) (repeatMode queue)) p1
              else p1
          | None => p1
          end
      | _, _ => p
      end
  | None => p
  end.

(** The dispatcher of pipeline [i] has finished: if it is the dispatcher
    of the connection of the queue object [a], that connection has none
    from now on. *)
Definition dispatcher_gone (i a : nat) (p : Player) : Player :=
  match store p !! a, dispatcher p a with
  | Some q, Some d =>
      if Nat.eqb d i then set_dispatcher (voiceConnection q) None p else p
  | _, _ => p
  end.

(** The dispatcher of pipeline [i] emits [finish]: the handler that
    [_playYTDLStream] registered runs. *)
Definition dispatcher_finish (i : nat) (p : Player) : Player :=
  match pipelines p !! i with
  | Some pl =>
      match pl_stage pl, store p !! pl_queue pl with
      | (Attached | Started), Some queue =>
          let p0 := dispatcher_gone i (pl_queue pl) p in
          let p1 := with_pipelines (<[i := set_stage Finished pl]> (pipelines p0)) p0 in
          _playTrack (guildID queue) false p1
      | _, _ => p
      end
  | None => p
  end.

(** ** Transport commands

    Each command runs in the executor of the promise it returns: what
    the executor throws rejects the promise, and what it assigned before
    that stays assigned. *)

(** [pause(guildID)]. *)
Definition pause (g : Snowflake) (p : Player) : Player * Promise value :=
  match findQueue p g with
  | None => (p, Rejected SessionNotFound)
  | Some a =>
      match dispatcher p a with
      | None => (p, Rejected (NullDispatcher "pause"))
      | Some _ =>
          let p1 := update a (set_paused true) (call a CPause p) in
          (p1, Resolved (js_index (default [] (tracks <$> store p !! a)) 0))
      end
  end.

(** [resume(guildID)]. *)
Definition resume (g : Snowflake) (p : Player) : Player * Promise value :=
  match findQueue p g with
  | None => (p, Rejected SessionNotFound)
  | Some a =>
      match dispatcher p a with
      | None => (p, Rejected (NullDispatcher "resume"))
      | Some _ =>
          let p1 := update a (set_paused false) (call a CResume p) in
          (p1, Resolved (js_index (default [] (tracks <$> store p !! a)) 0))
      end
  end.

(** [stop(guildID)]: the flag and the empty array are assigned before
    the dispatcher is reached. *)
Definition stop (g : Snowflake) (p : Player) : Player * Promise unit :=
  match findQueue p g with
  | None => (p, Rejected SessionNotFound)
  | Some a =>
      let p1 := update a (fun q => set_tracks [] (set_stopped true q)) p in
      match dispatcher p a with
      | None => (p1, Rejected (NullDispatcher "end"))
      | Some _ => (call a CEnd p1, Resolved tt)
      end
  end.

(** [setVolume(guildID, percent)]: the dispatcher is reached before
    [queue.volume] is assigned. *)
Definition setVolume (g : Snowflake) (percent : Z) (p : Player)
    : Player * Promise unit :=
  match findQueue p g with
  | None => (p, Rejected SessionNotFound)
  | Some a =>
      match dispatcher p a with
      | None => (p, Rejected (NullDispatcher "setVolumeLogarithmic"))
      | Some _ =>
          let p1 := call a (CSetVolumeLogarithmic (percent # 200)%Q) p in
          (update a (set_volume percent) p1, Resolved tt)
      end
  end.

(** [getQueue(guildID)] and [isPlaying(guildID)]. *)
Definition getQueue (g : Snowflake) (p : Player) : option nat := findQueue p g.

Definition isPlaying (g : Snowflake) (p : Player) : bool :=
  existsb (hasGuild p g) (queues p).

(** [setQueue(guildID, tracks)]: resolves with the queue object. *)
Definition setQueue (g : Snowflake) (l : list value) (p : Player)
    : Player * Promise nat :=
  match findQueue p g with
  | None => (p, Rejected SessionNotFound)
  | Some a => (update a (set_tracks l) p, Resolved a)
  end.

(** [clearQueue(guildID)]: [shift] and the new array, as this queue reads
    its [tracks]. *)
Definition clearQueue (g : Snowflake) (p : Player) : Player * Promise nat :=
  match findQueue p g with
  | None => (p, Rejected SessionNotFound)
  | Some a =>
      let p1 :=
        update a (fun q =>
                    let currentlyPlaying := fst (js_shift (tracks q)) in
                    set_tracks [currentlyPlaying] q) p in
      (p1, Resolved a)
  end.

(** [skip(guildID)]. *)
Definition skip (g : Snowflake) (p : Player) : Player * Promise value :=
  match findQueue p g with
  | None => (p, Rejected SessionNotFound)
  | Some a =>
      let currentTrack := js_index (default [] (tracks <$> store p !! a)) 0 in
      match dispatcher p a with
      | None => (p, Rejected (NullDispatcher "end"))
      | Some _ =>
          let p1 := update a (set_lastSkipped true) (call a CEnd p) in
          (p1, Resolved currentTrack)
      end
  end.

(** [nowPlaying(guildID)]. *)
Definition nowPlaying (g : Snowflake) (p : Player) : Player * Promise value :=
  match findQueue p g with
  | None => (p, Rejected SessionNotFound)
  | Some a =>
      let currentTrack := js_index (default [] (tracks <$> store p !! a)) 0 in
      (p, Resolved currentTrack)
  end.

(** [setRepeatMode(guildID, enabled)]. *)
Definition setRepeatMode (g : Snowflake) (enabled : bool) (p : Player)
    : Player * Promise unit :=
  match findQueue p g with
  | None => (p, Rejected SessionNotFound)
  | Some a => (update a (set_repeatMode enabled) p, Resolved tt)
  end.

(** [remove(guildID, track)]: the argument is a number or anything else.
    [trackFound] starts as [null] and is assigned in both branches. *)
Inductive RemoveArg :=
| ByNumber (i : Z)
| ByValue (v : value).

Definition remove (g : Snowflake) (track : RemoveArg) (p : Player)
    : Player * Promise value :=
  match findQueue p g with
  | None => (p, Rejected SessionNotFound)
  | Some a =>
      let tr := default [] (tracks <$> store p !! a) in
      let trackFound :=
        match track with
        | ByNumber i => js_index tr i
        | ByValue v => js_find (fun s => strict_eq s v) tr
        end in
      let p1 :=
        if truthy trackFound
        then update a (set_tracks
                         (List.filter (fun t => negb (strict_eq t trackFound)) tr)) p
        else p in
      (p1, Resolved trackFound)
  end.

(** [updateFilters(guildID, newFilters)]: [newFilters] lists the own
    properties of the argument as [Object.keys] does, [streamTime] is what
    the dispatcher reports when [_playYTDLStream] reads it. The promise is
    never settled for an existing session. *)
Definition mergeFilters (newFilters fs : list (string * bool)) : list (string * bool) :=
  fold_left (fun o kv => obj_set kv.1 kv.2 o) newFilters fs.

Definition updateFilters (g : Snowflake) (newFilters : list (string * bool))
    (streamTime : Z) (p : Player) : Player * Promise unit :=
  match findQueue p g with
  | None => (p, Rejected SessionNotFound)
  | Some a =>
      let p1 := update a (fun q => set_filters (mergeFilters newFilters (filters q)) q) p in
      (_playYTDLStream a true streamTime None p1, Pending)
  end.

(** [_handleVoiceStateUpdate(oldState, newState)]: the two channel ids and
    [queue.voiceConnection.channel.members.size]. *)
Definition _handleVoiceStateUpdate (oldChannel newChannel : option Snowflake)
    (membersSize : nat) (p : Player) : Player :=
  if negb (leaveOnEmpty (options p)) then p else
  match oldChannel, newChannel with
  | Some ch, None =>
      let bound a :=
        match store p !! a with
        | Some q => String.eqb (voiceConnection q) ch
        | None => false
        end in
      match List.find bound (queues p) with
      | Some a =>
          if (1 <? membersSize)%nat then p else
          let g := default "" (guildID <$> store p !! a) in
          emit a EvChannelEmpty (dropGuild g (leave a p))
      | None => p
      end
  | _, _ => p
  end.

(** ** Commands that reach the provider or the random source *)

Record VideoItem := mkItem { item_type : string; item_link : string }.

(** Modelled from the spec: class Track (./Track) is not part of the
    sources. [new Track(r, null, null)] describes the playable item [r]
    ("identity/source reference") with no requester yet. *)
Definition Track_new (o : nat) (r : VideoItem) : Track :=
  {| oid := o; url := item_link r; requestedBy := None |}.

Record VoiceChannel := mkChannel { vc_id : Snowflake; vc_guild_id : Snowflake }.

Inductive TrackArg :=
| ArgTrack (t : Track)
| ArgQuery (query : string).

(** [track.requestedBy = user], as the session that plays the track
    reads it. *)
Definition attribute (user : option User) (t : Track) : Track :=
  {| oid := oid t; url := url t; requestedBy := user |}.

(** The queue object [play] builds before it registers it: the guild of
    the channel as key, the connection, every filter of the table off and
    the attributed track pushed. *)
Definition play_queue (vc : VoiceChannel) (connection : Snowflake) (t : Track)
    : Queue :=
  let queue := Queue_new (vc_guild_id vc) in
  let queue := set_voiceConnection connection queue in
  let queue :=
    set_filters
      (fold_left (fun o f => obj_set f false o) (fst <$> filters_table) [])
      queue in
  set_tracks (tracks queue ++ [VTrack t]) queue.

Section Collaborators.

(** The YouTube URL pattern of [searchTracks]: capture group 1 when the
    query matches. *)
Variable videoId : string -> option string.
(** [ytsr(query, callback)]: the items handed to the callback, [None]
    when it is called with an error. *)
Variable ytsr : string -> option (list VideoItem).
(** [arr.sort(() => Math.random() - 0.5)]. *)
Variable sortRandom : list value -> list value.

(** [searchTracks(query)]: on an error the callback returns without
    settling the promise. *)
Definition searchTracks (query : string) (p : Player)
    : Player * Promise (list Track) :=
  let query := default query (videoId query) in
  match ytsr query with
  | None => (p, Pending)
  | Some items =>
      let resultsVideo :=
        List.filter (fun i => String.eqb (item_type i) "video") items in
      (with_nextOid (nextOid p + length resultsVideo) p,
       Resolved (imap (fun n r => Track_new (nextOid p + n) r) resultsVideo))
  end.

(** Member lookup [this.name] for a method that takes a query and
    returns a promise of tracks. The constructor assigns [client],
    [queues] and [options]; of the methods of class Player only
    [searchTracks] is such a method, and none is called [search]. *)
Definition Player_member (name : string)
    : option (string -> Player -> Player * Promise (list Track)) :=
  if String.eqb name "searchTracks" then Some searchTracks else None.

(** The callback of [.then] in [addToQueue]. *)
Definition addToQueue_then (a : nat) (requestedBy : option User)
    (track : list Track) (p : Player) : Player * Promise Track :=
  match head track with
  | None => (p, Rejected TrackNotFound)
  | Some t0 =>
      let t := attribute requestedBy t0 in
      (update a (fun q => set_tracks (tracks q ++ [VTrack t]) q) p, Resolved t)
  end.

(** [addToQueue(guildID, trackName, requestedBy)]: calling a member that
    does not exist throws inside the executor, which rejects the
    promise with that TypeError. *)
Definition addToQueue (g : Snowflake) (trackName : string)
    (requestedBy : option User) (p : Player) : Player * Promise Track :=
  match findQueue p g with
  | None => (p, Rejected SessionNotFound)
  | Some a =>
      match Player_member "search" with
      | None => (p, Rejected (TypeError "this.search is not a function"))
      | Some search =>
          match search trackName p with
          | (p1, Resolved track) => addToQueue_then a requestedBy track p1
          | (p1, Rejected _) => (p1, Rejected TrackNotFound)
          | (p1, Pending) => (p1, Pending)
          end
      end
  end.

(** [play(voiceChannel, track, user)] for a voice channel object. When
    the search gives no result [track] is undefined and
    [track.requestedBy = user] throws in the async executor: the
    returned promise is never settled. *)
Definition play (vc : VoiceChannel) (track : TrackArg) (user : option User)
    (p : Player) : Player * Promise Track :=
  let p0 := dropGuild (vc_id vc) p in
  let connection := vc_id vc in
  let '(p1, found) :=
    match track with
    | ArgTrack t => (p0, Some t)
    | ArgQuery query =>
        match searchTracks query p0 with
        | (p', Resolved results) => (p', head results)
        | (p', _) => (p', None)
        end
    end in
  match found with
  | None => (p1, Pending)
  | Some t0 =>
      let t := attribute user t0 in
      let queue := play_queue vc connection t in
      let a := length (store p1) in
      let p2 := with_queues (queues p1 ++ [a]) (with_store (store p1 ++ [queue]) p1) in
      (_playTrack (guildID queue) true p2, Resolved t)
  end.

(** [shuffle(guildID)]: [shift], [sort] and [unshift], as this queue
    reads its [tracks]. *)
Definition shuffle (g : Snowflake) (p : Player) : Player * Promise nat :=
  match findQueue p g with
  | None => (p, Rejected SessionNotFound)
  | Some a =>
      let p1 :=
        update a (fun q =>
                    let '(currentTrack, rest) := js_shift (tracks q) in
                    set_tracks (currentTrack :: sortRandom rest) q) p in
      (p1, Resolved a)
  end.

End Collaborators.

(** ** Runs: commands and signals in the order they are handled *)

Inductive Step :=
| DoPlay (vc : VoiceChannel) (track : TrackArg) (user : option User)
| DoPause (g : Snowflake)
| DoResume (g : Snowflake)
| DoStop (g : Snowflake)
| DoSetVolume (g : Snowflake) (percent : Z)
| DoAddToQueue (g : Snowflake) (trackName : string) (requestedBy : option User)
| DoSetQueue (g : Snowflake) (l : list value)
| DoClearQueue (g : Snowflake)
| DoSkip (g : Snowflake)
| DoNowPlaying (g : Snowflake)
| DoSetRepeatMode (g : Snowflake) (enabled : bool)
| DoShuffle (g : Snowflake)
| DoRemove (g : Snowflake) (track : RemoveArg)
| DoUpdateFilters (g : Snowflake) (newFilters : list (string * bool)) (streamTime : Z)
| VoiceStateUpdate (oldChannel newChannel : option Snowflake) (membersSize : nat)
| TimerFires (i : nat)
| SignalStart (i : nat)
| SignalFinish (i : nat).

Section Runs.

Variable videoId : string -> option string.
Variable ytsr : string -> option (list VideoItem).
Variable sortRandom : list value -> list value.

Definition step (s : Step) (p : Player) : Player :=
  match s with
  | DoPlay vc track user => fst (play videoId ytsr vc track user p)
  | DoPause g => fst (pause g p)
  | DoResume g => fst (resume g p)
  | DoStop g => fst (stop g p)
  | DoSetVolume g percent => fst (setVolume g percent p)
  | DoAddToQueue g n u => fst (addToQueue videoId ytsr g n u p)
  | DoSetQueue g l => fst (setQueue g l p)
  | DoClearQueue g => fst (clearQueue g p)
  | DoSkip g => fst (skip g p)
  | DoNowPlaying g => fst (nowPlaying g p)
  | DoSetRepeatMode g b => fst (setRepeatMode g b p)
  | DoShuffle g => fst (shuffle sortRandom g p)
  | DoRemove g t => fst (remove g t p)
  | DoUpdateFilters g nf st => fst (updateFilters g nf st p)
  | VoiceStateUpdate o n m => _handleVoiceStateUpdate o n m p
  | TimerFires i => timer_fires i p
  | SignalStart i => dispatcher_start i p
  | SignalFinish i => dispatcher_finish i p
  end.

Definition run (steps : list Step) (p : Player) : Player :=
  fold_left (fun p s => step s p) steps p.

(** The states a Player built by the constructor can be in. *)
Definition reachable (p : Player) : Prop :=
  exists (o : PlayerOptions) (steps : list Step), p = run steps (Player_new o).

End Runs.

(** The session registered for a key, as the commands see it. *)
Definition session (p : Player) (g : Snowflake) : option Queue :=
  a ← findQueue p g; store p !! a.

(** How many registered sessions carry a key. *)
Definition registered (p : Player) (g : Snowflake) : nat :=
  length (List.filter (hasGuild p g) (queues p)).

(** Every address of the registry names a queue object. *)
Definition registry_wf (p : Player) : Prop :=
  forall a, In a (queues p) -> a < length (store p).

(** [p'] registers no address that [p] did not, over the same objects. *)
Definition same_objects (p p' : Player) : Prop :=
  (forall a, In a (queues p') -> In a (queues p)) /\
  length (store p') = length (store p).

(** No queue object has [lastSkipped] set in [p'] unless it had in [p]. *)
Definition no_new_skip (p p' : Player) : Prop :=
  forall a, lastSkipped <$> store p' !! a = Some true ->
            lastSkipped <$> store p !! a = Some true.

(** ** A small world to run scenarios in *)

Module Scenario.

Definition noVideoId (query : string) : option string := None.

Definition catalogue (query : string) : option (list VideoItem) :=
  if String.eqb query "never gonna" then
    Some [mkItem "channel" "https://youtube.test/c/rick";
          mkItem "video" "https://youtube.test/watch?v=dQw4w9WgXcQ";
          mkItem "video" "https://youtube.test/watch?v=other"]
  else Some [].

Definition keepOrder (l : list value) : list value := l.

Definition trackA : Track := mkTrack 100 "https://youtube.test/a" None.
Definition trackB : Track := mkTrack 101 "https://youtube.test/b" None.
Definition trackC : Track := mkTrack 102 "https://youtube.test/c" None.

Definition alice : option User := Some "alice".
Definition A : Track := attribute alice trackA.

(** A voice channel of guild "guild-1". *)
Definition lounge : VoiceChannel := mkChannel "channel-7" "guild-1".

Definition exec := run noVideoId catalogue keepOrder.

(** play(lounge, A) has returned; the timer of its pipeline is still to
    fire. *)
Definition requested : Player :=
  exec [DoPlay lounge (ArgTrack trackA) alice] (Player_new defaultPlayerOptions).

(** play(lounge, A) and the first pipeline up and running. *)
Definition started : Player :=
  exec [DoPlay lounge (ArgTrack trackA) alice; TimerFires 0; SignalStart 0]
       (Player_new defaultPlayerOptions).

End Scenario.

(** ** Wording of the specification for [remove] *)

(** Exactly the one matched entry leaves the sequence. *)
Definition removes_exactly_one (before after : list value) (found : value) : Prop :=
  exists l1 l2, before = l1 ++ found :: l2 /\ after = l1 ++ l2.

(** The entry the argument designates: the one at the index, or the track
    given when the sequence holds it. *)
Definition designated (l : list value) (track : RemoveArg) : option value :=
  match track with
  | ByNumber i => if (i <? 0)%Z then None else l !! Z.to_nat i
  | ByValue v => if existsb (strict_eq v) l then Some v else None
  end.

(** [remove] as the specification words it: the matched entry, and only
    it, leaves the pending sequence and is returned; without a match the
    result is null and the sequence is unchanged. *)
Definition remove_as_specified (p : Player) (g : Snowflake) (track : RemoveArg) : Prop :=
  forall q, session p g = Some q ->
  let out := remove g track p in
  match designated (tracks q) track with
  | Some found =>
      snd out = Resolved found /\
      exists q', session (fst out) g = Some q' /\
                 removes_exactly_one (tracks q) (tracks q') found
  | None =>
      snd out = Resolved VNull /\
      tracks <$> session (fst out) g = Some (tracks q)
  end.

(** ** Wording of the specification for [setVolume] and [updateFilters] *)



(** How many entries of a sequence are the object [v]. *)
Definition occurrences (v : value) (l : list value) : nat :=
  length (List.filter (strict_eq v) l).

(** ** The constructor and the shared default options *)

(** [defaultPlayerOptions] is one object of the module; the constructor
    assigns it to [this.options] and then writes the caller's options
    into it, so every Player reads its options from this one object. *)
Definition defaultPlayerOptions_object : list (string * bool) :=
  [("leaveOnEnd", true); ("leaveOnStop", true); ("leaveOnEmpty", true)].

(** [new Player(client, options)]: [client] is the truthiness of the first
    argument, [shared] the default options object as the call finds it.
    The result is that object after the call, or the SyntaxError thrown. *)
Definition Player_constructor (client : bool) (options shared : list (string * bool))
    : list (string * bool) + string :=
  if negb client then inr "Invalid Discord client"
  else inl (fold_left (fun o kv => obj_set kv.1 kv.2 o) options shared).

(** [this.options.name] as a condition: a missing property is falsy. *)
Definition option_enabled (name : string) (shared : list (string * bool)) : bool :=
  default false (obj_get name shared).

(** The options a Player acts on, read from the shared object. *)
Definition read_options (shared : list (string * bool)) : PlayerOptions :=
  {| leaveOnEnd := option_enabled "leaveOnEnd" shared;
     leaveOnStop := option_enabled "leaveOnStop" shared;
     leaveOnEmpty := option_enabled "leaveOnEmpty" shared |}.

(** ** Vocabulary of the further properties *)

(** [this.queues.find((g) => g.voiceConnection.channel.id === ch)], the
    lookup of [_handleVoiceStateUpdate]. *)
Definition findByChannel (p : Player) (ch : Snowflake) : option nat :=
  List.find (fun a => match store p !! a with
                      | Some q => String.eqb (voiceConnection q) ch
                      | None => false
                      end) (queues p).

(** A queue object without its array of pending tracks. *)
Definition but_tracks (q : Queue) : Queue := set_tracks [] q.

(** [p'] differs from [p] at most in the queue object [a], which keeps
    its current track, and in the arrays of pending tracks: nothing was
    sent to the transport, nothing was emitted, no pipeline was requested
    and the registry is the same. *)
Definition edits_queue_only (p p' : Player) (a : nat) : Prop :=
  playing <$> store p' !! a = playing <$> store p !! a /\
  (forall b, b <> a ->
     but_tracks <$> store p' !! b = but_tracks <$> store p !! b) /\
  queues p' = queues p /\ calls p' = calls p /\
  emitted p' = emitted p /\ pipelines p' = pipelines p /\
  dispatchers p' = dispatchers p.

(** The pipeline [_playTrack] asks for when it repeats the track [t]. *)
Definition repeat_pipeline (a : nat) (q : Queue) (t : Track) : Pipeline :=
  mkPipeline a (url t) (encoderArgs_of (filters q)) None
    (Some (mkContinuation false (VTrack t) (VTrack t))) Requested.

(** * Properties *)

(** ** The store and the registry *)

Lemma find_ext_bool {A} (f h : A -> bool) (l : list A) :
  (forall x, f x = h x) -> List.find f l = List.find h l.
Proof.
  intros E. induction l as [|x l IH]; simpl; [reflexivity|].
  rewrite E, IH. reflexivity.
Qed.

Lemma filter_ext_bool {A} (f h : A -> bool) (l : list A) :
  (forall x, f x = h x) -> List.filter f l = List.filter h l.
Proof.
  intros E. induction l as [|x l IH]; simpl; [reflexivity|].
  rewrite E, IH. reflexivity.
Qed.

Lemma findQueue_Some p g a :
  findQueue p g = Some a ->
  exists q, store p !! a = Some q /\ guildID q = g.
Proof.
  unfold findQueue. intros H. apply find_some in H as [_ H].
  unfold hasGuild in H. destruct (store p !! a) as [q|]; [|discriminate].
  exists q. split; [reflexivity|]. apply String.eqb_eq, H.
Qed.

Lemma session_Some p g a q :
  findQueue p g = Some a -> store p !! a = Some q -> session p g = Some q.
Proof. unfold session. intros -> H. exact H. Qed.

Lemma update_store_eq a f p q :
  store p !! a = Some q -> store (update a f p) !! a = Some (f q).
Proof.
  intros H. unfold update. rewrite H. simpl.
  apply list_lookup_insert_eq. eapply lookup_lt_Some, H.
Qed.

Lemma update_store_ne a b f p :
  b <> a -> store (update a f p) !! b = store p !! b.
Proof.
  intros N. unfold update. destruct (store p !! a); [|reflexivity].
  simpl. apply list_lookup_insert_ne. congruence.
Qed.

Lemma update_frame a f p :
  queues (update a f p) = queues p /\ options (update a f p) = options p /\
  emitted (update a f p) = emitted p /\ calls (update a f p) = calls p /\
  pipelines (update a f p) = pipelines p /\ nextOid (update a f p) = nextOid p.
Proof. unfold update. destruct (store p !! a); simpl; repeat split. Qed.

Lemma update_dispatchers a f p : dispatchers (update a f p) = dispatchers p.
Proof. unfold update. destruct (store p !! a); reflexivity. Qed.

(** An assignment that leaves the connection of a queue object alone
    leaves every dispatcher where it is. *)
Lemma dispatcher_update a b f p :
  (forall q, voiceConnection (f q) = voiceConnection q) ->
  dispatcher (update a f p) b = dispatcher p b.
Proof.
  intros V. unfold dispatcher. rewrite update_dispatchers.
  destruct (decide (b = a)) as [->|N].
  - destruct (store p !! a) as [q|] eqn:E.
    + rewrite (update_store_eq _ _ _ _ E), V. reflexivity.
    + unfold update. rewrite E, E. reflexivity.
  - rewrite update_store_ne by exact N. reflexivity.
Qed.

Lemma hasGuild_update a f p g b :
  (forall q, guildID (f q) = guildID q) ->
  hasGuild (update a f p) g b = hasGuild p g b.
Proof.
  intros G. unfold hasGuild. destruct (decide (b = a)) as [->|N].
  - destruct (store p !! a) as [q|] eqn:E.
    + rewrite (update_store_eq _ _ _ _ E), G. reflexivity.
    + unfold update. rewrite E, E. reflexivity.
  - rewrite update_store_ne by exact N. reflexivity.
Qed.

Lemma findQueue_update a f p g :
  (forall q, guildID (f q) = guildID q) ->
  findQueue (update a f p) g = findQueue p g.
Proof.
  intros G. unfold findQueue.
  destruct (update_frame a f p) as (-> & _).
  apply find_ext_bool. intros b. apply hasGuild_update, G.
Qed.

Lemma findQueue_call a c p g : findQueue (call a c p) g = findQueue p g.
Proof. reflexivity. Qed.

(** The lookup by key reads the registry and the queue objects only. *)
Lemma findQueue_same p p' g :
  store p' = store p -> queues p' = queues p -> findQueue p' g = findQueue p g.
Proof. intros S Q. unfold findQueue, hasGuild. rewrite S, Q. reflexivity. Qed.

(** Leaving the channel is one call on the transport. *)
Lemma leave_frame a p :
  store (leave a p) = store p /\ queues (leave a p) = queues p /\
  options (leave a p) = options p /\ emitted (leave a p) = emitted p /\
  calls (leave a p) = calls p ++ [(a, CLeave)] /\
  pipelines (leave a p) = pipelines p /\ nextOid (leave a p) = nextOid p.
Proof. unfold leave. destruct (store p !! a); repeat split. Qed.

Lemma findQueue_leave a p g : findQueue (leave a p) g = findQueue p g.
Proof.
  destruct (leave_frame a p) as (S & Q & _). apply findQueue_same; assumption.
Qed.

(** The end of a dispatcher is seen in the dispatchers only. *)
Lemma dispatcher_gone_frame i a p :
  store (dispatcher_gone i a p) = store p /\
  queues (dispatcher_gone i a p) = queues p /\
  options (dispatcher_gone i a p) = options p /\
  emitted (dispatcher_gone i a p) = emitted p /\
  calls (dispatcher_gone i a p) = calls p /\
  pipelines (dispatcher_gone i a p) = pipelines p /\
  nextOid (dispatcher_gone i a p) = nextOid p.
Proof.
  unfold dispatcher_gone. destruct (store p !! a); [|repeat split].
  destruct (dispatcher p a) as [d|]; [|repeat split].
  destruct (Nat.eqb d i); repeat split.
Qed.

(** A field assignment on the session of [g] is seen by the next lookup. *)
Lemma session_update p g a q f :
  findQueue p g = Some a -> store p !! a = Some q ->
  (forall q, guildID (f q) = guildID q) ->
  session (update a f p) g = Some (f q).
Proof.
  intros F S G. unfold session. rewrite (findQueue_update _ _ _ _ G), F.
  simpl. apply update_store_eq, S.
Qed.

(** ** Volume *)


(** Without a dispatcher [setVolume] throws before it stores anything. *)
Lemma setVolume_null_dispatcher (p : Player) (g : Snowflake) (a : nat) (percent : Z) :
  findQueue p g = Some a -> dispatcher p a = None ->
  setVolume g percent p = (p, Rejected (NullDispatcher "setVolumeLogarithmic")).
Proof. intros F D. unfold setVolume. rewrite F, D. reflexivity. Qed.




(** Out of range values are stored and passed on like any other. *)
Example setVolume_out_of_range :
  let p' := fst (setVolume "guild-1" 250 Scenario.started) in
  snd (setVolume "guild-1" 250 Scenario.started) = Resolved tt /\
  volume <$> session p' "guild-1" = Some 250%Z /\
  last (calls p') = Some (0, CSetVolumeLogarithmic (250 # 200)).
Proof. repeat split. Qed.

(** ** Filters *)

Lemma obj_get_obj_replace {A} (k k' : string) (v w : A) (o : list (string * A)) :
  obj_get k' o = Some w ->
  obj_get k (obj_replace k' v o) = if String.eqb k k' then Some v else obj_get k o.
Proof.
  induction o as [|[k0 v0] o IH]; simpl; [discriminate|].
  destruct (String.eqb k' k0) eqn:E0; simpl.
  - intros _. apply String.eqb_eq in E0. subst k0.
    destruct (String.eqb k k'); reflexivity.
  - intros H. destruct (String.eqb k k0) eqn:E1.
    + apply String.eqb_eq in E1. subst k0.
      rewrite String.eqb_sym, E0. reflexivity.
    + apply IH, H.
Qed.

Lemma obj_get_obj_insert {A} (n : N) (k k' : string) (v : A) (o : list (string * A)) :
  obj_get k' o = None ->
  obj_get k (obj_insert n k' v o) = if String.eqb k k' then Some v else obj_get k o.
Proof.
  induction o as [|[k0 v0] o IH]; simpl.
  - intros _. reflexivity.
  - destruct (String.eqb k' k0) eqn:E0; [discriminate|]. intros H.
    assert (X : obj_get k ((k', v) :: (k0, v0) :: o) =
                if String.eqb k k' then Some v
                else if String.eqb k k0 then Some v0 else obj_get k o)
      by reflexivity.
    destruct (array_index k0) as [m|]; [|exact X].
    destruct (m <? n)%N; [|exact X].
    simpl. destruct (String.eqb k k0) eqn:E1.
    + apply String.eqb_eq in E1. subst k0.
      rewrite String.eqb_sym, E0. reflexivity.
    + apply IH, H.
Qed.

Lemma obj_get_app_new {A} (k k' : string) (v : A) (o : list (string * A)) :
  obj_get k' o = None ->
  obj_get k (o ++ [(k', v)]) = if String.eqb k k' then Some v else obj_get k o.
Proof.
  induction o as [|[k0 v0] o IH]; simpl.
  - intros _. reflexivity.
  - destruct (String.eqb k' k0) eqn:E0; [discriminate|]. intros H.
    destruct (String.eqb k k0) eqn:E1.
    + apply String.eqb_eq in E1. subst k0.
      rewrite String.eqb_sym, E0. reflexivity.
    + apply IH, H.
Qed.

(** An assignment is read back, and no other property reads differently. *)
Lemma obj_get_obj_set {A} (k k' : string) (v : A) (o : list (string * A)) :
  k' <> "__proto__" ->
  obj_get k (obj_set k' v o) = if String.eqb k k' then Some v else obj_get k o.
Proof.
  intros N. unfold obj_set.
  destruct (String.eqb k' "__proto__") eqn:E.
  { apply String.eqb_eq in E. contradiction. }
  destruct (obj_get k' o) as [w|] eqn:G.
  - apply (obj_get_obj_replace _ _ _ w), G.
  - destruct (array_index k') as [n|].
    + apply obj_get_obj_insert, G.
    + apply obj_get_app_new, G.
Qed.

Lemma obj_get_In {A} (k : string) (v : A) (o : list (string * A)) :
  obj_get k o = Some v -> k ∈ fst <$> o.
Proof.
  induction o as [|[k0 v0] o IH]; simpl; [discriminate|].
  destruct (String.eqb k k0) eqn:E.
  - apply String.eqb_eq in E. subst. intros _. left.
  - intros H. right. apply IH, H.
Qed.

(** Merging takes the toggle of every name given and keeps the others. *)
Lemma obj_get_mergeFilters (newFilters fs : list (string * bool)) (name : string) :
  NoDup (fst <$> newFilters) -> name <> "__proto__" ->
  obj_get name (mergeFilters newFilters fs) =
    match obj_get name newFilters with
    | Some b => Some b
    | None => obj_get name fs
    end.
Proof.
  unfold mergeFilters. revert fs.
  induction newFilters as [|[k b] nf IH]; intros fs ND NP; simpl; [reflexivity|].
  apply NoDup_cons in ND as [Hk ND]. rewrite (IH _ ND NP).
  destruct (String.eqb name k) eqn:E.
  - apply String.eqb_eq in E. subst k.
    rewrite obj_get_obj_set by exact NP. rewrite String.eqb_refl.
    destruct (obj_get name nf) as [b'|] eqn:G; [|reflexivity].
    exfalso. apply Hk. apply (obj_get_In _ _ _ G).
  - destruct (obj_get name nf); [reflexivity|].
    destruct (String.eqb k "__proto__") eqn:P.
    + unfold obj_set. simpl. rewrite P. reflexivity.
    + rewrite obj_get_obj_set, E; [reflexivity|].
      intros ->. discriminate.
Qed.

(** A toggle named [__proto__] is not stored. *)
Lemma obj_get_mergeFilters_proto (newFilters fs : list (string * bool)) :
  obj_get "__proto__" (mergeFilters newFilters fs) = obj_get "__proto__" fs.
Proof.
  unfold mergeFilters. revert fs.
  induction newFilters as [|[k b] nf IH]; intros fs; simpl; [reflexivity|].
  rewrite IH. destruct (String.eqb k "__proto__") eqn:P.
  - unfold obj_set. rewrite P. reflexivity.
  - rewrite obj_get_obj_set; [|intros ->; discriminate].
    rewrite String.eqb_sym, P. reflexivity.
Qed.

Lemma _playYTDLStream_request a streamTime k p q :
  store p !! a = Some q ->
  _playYTDLStream a false streamTime k p =
    match playing q with
    | VTrack t =>
        with_pipelines
          (pipelines p ++
             [mkPipeline a (url t) (encoderArgs_of (filters q)) None
                k Requested]) p
    | _ => p
    end.
Proof. intros H. unfold _playYTDLStream. rewrite H. reflexivity. Qed.


(** Without a dispatcher the restart opens no stream. *)
Lemma _playYTDLStream_null_dispatcher a streamTime k p :
  dispatcher p a = None -> _playYTDLStream a true streamTime k p = p.
Proof.
  intros D. unfold _playYTDLStream, currentStreamTime. rewrite D.
  destruct (store p !! a); reflexivity.
Qed.

Lemma timer_fires_requested i p pl q :
  pipelines p !! i = Some pl -> pl_stage pl = Requested ->
  store p !! pl_queue pl = Some q ->
  timer_fires i p =
    with_pipelines (<[i := set_stage Attached pl]> (pipelines p))
      (call (pl_queue pl) (CSetVolumeLogarithmic (volume q # 200)%Q)
         (set_dispatcher (voiceConnection q) (Some i)
            (call (pl_queue pl)
               (CPlay (pl_url pl) (pl_encoderArgs pl) (pl_seek pl)) p))).
Proof. intros H1 H2 H3. unfold timer_fires. rewrite H1, H2, H3. reflexivity. Qed.

Lemma dispatcher_start_attached i p pl q :
  pipelines p !! i = Some pl -> pl_stage pl = Attached ->
  store p !! pl_queue pl = Some q ->
  emitted (dispatcher_start i p) =
    match pl_then pl with
    | Some k =>
        if negb (k_firstPlay k)
        then emitted p ++
               [(pl_queue pl,
                 EvTrackChanged (k_nowPlaying k) (k_wasPlaying k)
                   (lastSkipped q) (repeatMode q))]
        else emitted p
    | None => emitted p
    end.
Proof.
  intros H1 H2 H3. unfold dispatcher_start. rewrite H1, H2, H3.
  destruct (pl_then pl) as [k|]; [|reflexivity].
  destruct (negb (k_firstPlay k)); reflexivity.
Qed.

(** What the start of a freshly requested pipeline emits: the flags of
    the event are read from the queue when the pipeline starts. *)
Lemma requested_pipeline_start p pl q :
  store p !! pl_queue pl = Some q -> pl_stage pl = Requested ->
  let n := length (pipelines p) in
  let p' := with_pipelines (pipelines p ++ [pl]) p in
  emitted (dispatcher_start n (timer_fires n p')) =
    match pl_then pl with
    | Some k =>
        if negb (k_firstPlay k)
        then emitted p ++
               [(pl_queue pl,
                 EvTrackChanged (k_nowPlaying k) (k_wasPlaying k)
                   (lastSkipped q) (repeatMode q))]
        else emitted p
    | None => emitted p
    end.
Proof.
  intros S Hs n p'.
  assert (L : pipelines p' !! n = Some pl) by (apply list_lookup_middle; reflexivity).
  assert (S' : store p' !! pl_queue pl = Some q) by exact S.
  rewrite (timer_fires_requested _ _ _ _ L Hs S').
  rewrite (dispatcher_start_attached n _ (set_stage Attached pl) q).
  - reflexivity.
  - unfold p'. cbn [pipelines with_pipelines call set_dispatcher with_dispatchers].
    apply list_lookup_insert_eq. rewrite length_app. simpl. unfold n. lia.
  - reflexivity.
  - exact S.
Qed.



(** Without a dispatcher [updateFilters] merges the toggles and opens no
    stream: reading [dispatcher.streamTime] throws in [_playYTDLStream]. *)
Lemma updateFilters_null_dispatcher (p : Player) (g : Snowflake) (a : nat)
    (newFilters : list (string * bool)) (streamTime : Z) :
  findQueue p g = Some a -> dispatcher p a = None ->
  fst (updateFilters g newFilters streamTime p) =
    update a (fun q => set_filters (mergeFilters newFilters (filters q)) q) p.
Proof.
  intros F D. unfold updateFilters. rewrite F. cbn [fst].
  apply _playYTDLStream_null_dispatcher.
  rewrite dispatcher_update by reflexivity. exact D.
Qed.


(** ** Queues that are empty *)

(** C10. When the pending sequence of an existing session is empty,
    [clearQueue] and [shuffle] both leave it holding one entry, the value
    undefined, which is not a Track: a sequence of Tracks only is not
    preserved by every operation. *)
Theorem clearQueue_and_shuffle_put_undefined_in_an_empty_queue
    (sortRandom : list value -> list value)
    (p : Player) (g : Snowflake) (a : nat) (q : Queue) :
  (forall l, Permutation l (sortRandom l)) ->
  findQueue p g = Some a ->
  store p !! a = Some q ->
  tracks q = [] ->
  session (fst (clearQueue g p)) g = Some (set_tracks [VUndefined] q) /\
  session (fst (shuffle sortRandom g p)) g = Some (set_tracks [VUndefined] q) /\
  Forall isTrack (tracks q) /\
  ~ Forall isTrack (tracks (set_tracks [VUndefined] q)).
Proof.
  intros Perm F S T. split; [|split; [|split]].
  - unfold clearQueue. rewrite F. cbn [fst].
    erewrite session_update; [|exact F|exact S|reflexivity].
    cbv beta zeta. rewrite T. reflexivity.
  - unfold shuffle. rewrite F. cbn [fst].
    erewrite session_update; [|exact F|exact S|].
    + cbv beta. rewrite T. cbn [js_shift].
      rewrite (Permutation_nil (Perm [])). reflexivity.
    + intros q0. destruct (js_shift (tracks q0)). reflexivity.
  - rewrite T. constructor.
  - cbn [tracks set_tracks]. intros H. apply Forall_cons in H as [H _]. exact H.
Qed.

Lemma clearQueue_and_shuffle_put_undefined_in_an_empty_queue_witness :
  tracks <$> session Scenario.started "guild-1" = Some [] /\
  tracks <$> session (fst (clearQueue "guild-1" Scenario.started)) "guild-1"
    = Some [VUndefined] /\
  tracks <$> session (fst (shuffle (@rev value) "guild-1" Scenario.started)) "guild-1"
    = Some [VUndefined] /\
  ~ Forall isTrack [VUndefined].
Proof.
  destruct (clearQueue_and_shuffle_put_undefined_in_an_empty_queue
              (@rev value) Scenario.started "guild-1" 0
              (default (Queue_new "") (store Scenario.started !! 0)))
    as (Hc & Hs & _ & Hn).
  - intros l. apply Permutation_rev.
  - reflexivity.
  - reflexivity.
  - reflexivity.
  - split; [reflexivity|]. rewrite Hc, Hs. repeat split. exact Hn.
Defined.

(** ** Removing a track *)

Lemma strict_eq_refl v : strict_eq v v = true.
Proof. destruct v; simpl; [reflexivity|reflexivity|apply Nat.eqb_refl]. Qed.

Lemma strict_eq_sym v w : strict_eq v w = strict_eq w v.
Proof. destruct v, w; simpl; try reflexivity. apply Nat.eqb_sym. Qed.

Lemma strict_eq_track s t :
  strict_eq s (VTrack t) = true -> exists t', s = VTrack t' /\ oid t' = oid t.
Proof.
  destruct s as [| |t']; simpl; try discriminate.
  intros H. apply Nat.eqb_eq in H. eauto.
Qed.

Lemma occurrences_zero_filter v l :
  occurrences v l = 0 ->
  List.filter (fun s => negb (strict_eq s v)) l = l.
Proof.
  unfold occurrences. induction l as [|x l IH]; simpl; [reflexivity|].
  rewrite (strict_eq_sym x v). destruct (strict_eq v x); simpl.
  - discriminate.
  - intros H. rewrite (IH H). reflexivity.
Qed.

Lemma occurrences_In v l : In v l -> 0 < occurrences v l.
Proof.
  unfold occurrences. induction l as [|x l IH]; simpl; [tauto|].
  intros [->|H].
  - rewrite strict_eq_refl. simpl. lia.
  - specialize (IH H). destruct (strict_eq v x); simpl; lia.
Qed.

(** Filtering out an object that the sequence holds once takes out exactly
    that entry. *)
Lemma filter_removes_exactly_one found l :
  In found l -> occurrences found l = 1 ->
  removes_exactly_one l
    (List.filter (fun s => negb (strict_eq s found)) l) found.
Proof.
  induction l as [|x l IH]; [intros []|].
  intros HIn Hocc. unfold occurrences in Hocc. simpl in Hocc |- *.
  rewrite (strict_eq_sym x found).
  destruct (strict_eq found x) eqn:E; simpl in Hocc |- *.
  - assert (Z0 : occurrences found l = 0) by (unfold occurrences; lia).
    destruct HIn as [->|HIn].
    + exists [], l. split; [reflexivity|].
      simpl. apply occurrences_zero_filter, Z0.
    + apply occurrences_In in HIn. lia.
  - destruct HIn as [->|HIn]; [rewrite strict_eq_refl in E; discriminate|].
    destruct (IH HIn Hocc) as (l1 & l2 & H1 & H2).
    exists (x :: l1), l2. simpl. rewrite <- H1, <- H2. split; reflexivity.
Qed.

Lemma js_find_In f l v :
  js_find f l = v -> truthy v = true -> In v l /\ f v = true.
Proof.
  unfold js_find. destruct (List.find f l) as [w|] eqn:E; simpl.
  - intros -> _. apply find_some in E. exact E.
  - intros <-. discriminate.
Qed.

Lemma js_find_none f l :
  (forall s, In s l -> f s = false) -> js_find f l = VUndefined.
Proof.
  intros H. unfold js_find. destruct (List.find f l) as [w|] eqn:E; [|reflexivity].
  apply find_some in E as [E1 E2]. rewrite (H _ E1) in E2. discriminate.
Qed.

Lemma js_find_some f l s :
  In s l -> f s = true -> exists w, js_find f l = w /\ In w l /\ f w = true.
Proof.
  intros HIn Hf. unfold js_find.
  destruct (List.find f l) as [w|] eqn:E.
  - apply find_some in E. exists w. simpl. tauto.
  - rewrite (find_none _ _ E _ HIn) in Hf. discriminate.
Qed.

Lemma remove_found (p : Player) (g : Snowflake) (a : nat) (q : Queue)
    (track : RemoveArg) :
  findQueue p g = Some a -> store p !! a = Some q ->
  remove g track p =
    let trackFound :=
      match track with
      | ByNumber i => js_index (tracks q) i
      | ByValue v => js_find (fun s => strict_eq s v) (tracks q)
      end in
    (if truthy trackFound
     then update a (set_tracks
                      (List.filter (fun t => negb (strict_eq t trackFound)) (tracks q))) p
     else p,
     Resolved trackFound).
Proof. intros F S. unfold remove. rewrite F, S. reflexivity. Qed.

(** C9, as amended. For every existing session: when the index designates
    a track, or the track given is in the pending sequence, [remove]
    returns that track and takes out of the sequence every entry that is
    this same object, which is exactly the one matched entry when the
    track occurs once; when the index is out of range or the track is not
    in the sequence, it returns no track and changes nothing. *)
Theorem remove_takes_out_the_matched_track
    (p : Player) (g : Snowflake) (a : nat) (q : Queue) (track : RemoveArg) :
  findQueue p g = Some a ->
  store p !! a = Some q ->
  let p' := fst (remove g track p) in
  exists found : value,
    snd (remove g track p) = Resolved found /\
    (* the index designates a track *)
    (forall i t, track = ByNumber i -> (0 <= i)%Z ->
       tracks q !! Z.to_nat i = Some (VTrack t) -> found = VTrack t) /\
    (* the track given is in the sequence *)
    (forall t s, track = ByValue (VTrack t) -> In s (tracks q) ->
       strict_eq s (VTrack t) = true ->
       exists t', found = VTrack t' /\ oid t' = oid t) /\
    (* what a match takes out *)
    (isTrack found ->
       In found (tracks q) /\
       session p' g =
         Some (set_tracks
                 (List.filter (fun s => negb (strict_eq s found)) (tracks q)) q) /\
       (occurrences found (tracks q) = 1 ->
        removes_exactly_one (tracks q)
          (List.filter (fun s => negb (strict_eq s found)) (tracks q)) found)) /\
    (* no match *)
    (forall i, track = ByNumber i ->
       (i < 0)%Z \/ (Z.of_nat (length (tracks q)) <= i)%Z ->
       ~ isTrack found /\ p' = p) /\
    (forall v, track = ByValue v ->
       (forall s, In s (tracks q) -> strict_eq s v = false) ->
       ~ isTrack found /\ p' = p).
Proof.
  intros F S. rewrite (remove_found p g a q track F S). cbv zeta. cbn [fst snd].
  set (found := match track with
                | ByNumber i => js_index (tracks q) i
                | ByValue v => js_find (fun s => strict_eq s v) (tracks q)
                end).
  exists found. split; [reflexivity|]. split; [|split; [|split; [|split]]].
  - intros i t -> Hi Hl. unfold found, js_index.
    destruct (i <? 0)%Z eqn:E; [apply Z.ltb_lt in E; lia|].
    rewrite Hl. reflexivity.
  - intros t s -> HIn Hs. unfold found.
    destruct (js_find_some (fun s => strict_eq s (VTrack t)) _ _ HIn Hs)
      as (w & Hw & _ & Hf).
    rewrite Hw. apply strict_eq_track, Hf.
  - intros Ht.
    assert (Tr : truthy found = true) by (destruct found; simpl in *; tauto).
    assert (HIn : In found (tracks q)).
    { unfold found in *. destruct track as [i|v].
      - unfold js_index in *. destruct (i <? 0)%Z; [discriminate|].
        destruct (tracks q !! Z.to_nat i) as [w|] eqn:E; [|discriminate].
        simpl. apply list_elem_of_In, list_elem_of_lookup. eauto.
      - eapply js_find_In; [reflexivity|exact Tr]. }
    rewrite Tr. split; [exact HIn|]. split.
    + apply session_update; [exact F|exact S|reflexivity].
    + intros Hocc. apply filter_removes_exactly_one; assumption.
  - intros i -> Hr. assert (E : found = VUndefined).
    { unfold found, js_index. destruct (i <? 0)%Z eqn:E; [reflexivity|].
      apply Z.ltb_ge in E. rewrite lookup_ge_None_2 by lia. reflexivity. }
    rewrite E. simpl. split; [tauto|reflexivity].
  - intros v -> Hn. assert (E : found = VUndefined).
    { unfold found. apply js_find_none, Hn. }
    rewrite E. simpl. split; [tauto|reflexivity].
Qed.

Lemma remove_takes_out_the_matched_track_witness :
  let p := Scenario.exec
             [DoSetQueue "guild-1" [VTrack Scenario.trackB; VTrack Scenario.trackC]]
             Scenario.started in
  (snd (remove "guild-1" (ByNumber 1) p) = Resolved (VTrack Scenario.trackC) /\
   tracks <$> session (fst (remove "guild-1" (ByNumber 1) p)) "guild-1"
     = Some [VTrack Scenario.trackB] /\
   removes_exactly_one [VTrack Scenario.trackB; VTrack Scenario.trackC]
     [VTrack Scenario.trackB] (VTrack Scenario.trackC)) /\
  fst (remove "guild-1" (ByNumber 5) p) = p.
Proof.
  intros p.
  pose (q := default (Queue_new "") (store p !! 0)).
  split.
  - destruct (remove_takes_out_the_matched_track p "guild-1" 0 q (ByNumber 1)
                eq_refl eq_refl) as (found & Hr & Hi & _ & Hm & _).
    assert (E : found = VTrack Scenario.trackC).
    { apply (Hi 1%Z); [reflexivity|lia|reflexivity]. }
    subst found. destruct (Hm I) as (_ & Hs & Hx).
    split; [exact Hr|]. split.
    + rewrite Hs. reflexivity.
    + apply Hx. reflexivity.
  - destruct (remove_takes_out_the_matched_track p "guild-1" 0 q (ByNumber 5)
                eq_refl eq_refl) as (found & _ & _ & _ & _ & Hn & _).
    apply (Hn 5%Z); [reflexivity|]. right. simpl. lia.
Defined.

(** [remove] is not as the specification words it: an index whose track
    was queued twice takes both entries out, and an index out of range
    resolves with undefined, not null. *)
Lemma remove_not_as_specified :
  ~ remove_as_specified
      (Scenario.exec
         [DoSetQueue "guild-1"
            [VTrack Scenario.trackB; VTrack Scenario.trackC; VTrack Scenario.trackB]]
         Scenario.started)
      "guild-1" (ByNumber 0) /\
  ~ remove_as_specified Scenario.started "guild-1" (ByNumber 0).
Proof.
  split.
  - intros H. pose proof (H _ eq_refl) as H'. cbv zeta in H'.
    destruct H' as (_ & q' & Hs & l1 & l2 & H1 & H2).
    vm_compute in Hs. injection Hs as <-. cbn [tracks] in H2.
    vm_compute in H1. apply (f_equal (@length value)) in H1, H2.
    rewrite length_app in H1, H2. simpl in H1, H2. lia.
  - intros H. pose proof (H _ eq_refl) as H'. cbv zeta in H'.
    destruct H' as (H' & _). vm_compute in H'. discriminate.
Qed.

(** ** Advancing to the next track *)

Lemma find_filter_negb {A} (f : A -> bool) (l : list A) :
  List.find f (List.filter (fun x => negb (f x)) l) = None.
Proof.
  induction l as [|x l IH]; simpl; [reflexivity|].
  destruct (f x) eqn:E; simpl; [exact IH|]. rewrite E. exact IH.
Qed.

Lemma findQueue_dropGuild p g : findQueue (dropGuild g p) g = None.
Proof. unfold findQueue, dropGuild. apply find_filter_negb. Qed.

Lemma isPlaying_findQueue p g : isPlaying g p = false <-> findQueue p g = None.
Proof.
  unfold isPlaying, findQueue. induction (queues p) as [|x l IH]; simpl.
  - tauto.
  - destruct (hasGuild p g x); simpl; [split; discriminate|exact IH].
Qed.

(** A finish with exactly one track pending and repeat off ends the
    session, whatever that track is; no pipeline is requested for it. *)
Lemma _playTrack_one_pending_ends p g a q c :
  findQueue p g = Some a -> store p !! a = Some q ->
  tracks q = [c] -> repeatMode q = false ->
  let p' := _playTrack g false p in
  session p' g = None /\
  isPlaying g p' = false /\
  pipelines p' = pipelines p /\
  store p' = store p /\
  emitted p' = emitted p ++ [(a, if stopped q then EvStop else EvEnd)].
Proof.
  intros F S T R. unfold _playTrack. rewrite F, S, T, R.
  change ((length [c] <? 2)%nat && negb false && negb false) with true.
  cbv beta iota zeta.
  set (p1 := if leaveOnEnd (options p) && negb (stopped q) then leave a p else p).
  assert (H1 : store p1 = store p /\ emitted p1 = emitted p /\
               pipelines p1 = pipelines p).
  { unfold p1. destruct (leaveOnEnd (options p) && negb (stopped q));
      [|repeat split].
    destruct (leave_frame a p) as (? & _ & _ & ? & _ & ? & _).
    repeat split; assumption. }
  destruct H1 as (S1 & E1 & P1).
  set (p2 := dropGuild g p1).
  assert (N : forall p3, store p3 = store p2 -> queues p3 = queues p2 ->
                         session p3 g = None /\ isPlaying g p3 = false).
  { intros p3 Hs Hq.
    assert (H : findQueue p3 g = None)
      by (rewrite (findQueue_same p2 p3 g Hs Hq); apply findQueue_dropGuild).
    split; [unfold session; rewrite H; reflexivity|apply isPlaying_findQueue, H]. }
  destruct (stopped q).
  - set (p3 := if leaveOnStop (options p) then leave a p2 else p2).
    assert (H3 : store p3 = store p2 /\ queues p3 = queues p2 /\
                 emitted p3 = emitted p2 /\ pipelines p3 = pipelines p2).
    { unfold p3. destruct (leaveOnStop (options p)); [|repeat split].
      destruct (leave_frame a p2) as (? & ? & _ & ? & _ & ? & _).
      repeat split; assumption. }
    destruct H3 as (S3 & Q3 & E3 & P3).
    destruct (N (emit a EvStop p3) S3 Q3) as (N1 & N2).
    split; [exact N1|]. split; [exact N2|].
    cbn [pipelines store emitted emit]. rewrite P3, S3, E3.
    cbn [pipelines store emitted dropGuild with_queues p2]. rewrite P1, S1, E1.
    repeat split.
  - destruct (N (emit a EvEnd p2) eq_refl eq_refl) as (N1 & N2).
    split; [exact N1|]. split; [exact N2|].
    cbn [pipelines store emitted emit dropGuild with_queues p2].
    rewrite P1, S1, E1. repeat split.
Qed.

(** The state [_playTrack] leaves when it advances to the head [t] of the
    pending sequence. *)
Lemma _playTrack_advance p g a q t rest firstPlay :
  findQueue p g = Some a -> store p !! a = Some q ->
  repeatMode q = false -> tracks q = VTrack t :: rest ->
  (firstPlay = true \/ rest <> []) ->
  _playTrack g firstPlay p =
    with_pipelines
      (pipelines p ++
         [mkPipeline a (url t) (encoderArgs_of (filters q)) None
            (Some (mkContinuation firstPlay (VTrack t) (playing q))) Requested])
      (update a (fun q0 => set_lastSkipped false
                             (set_tracks rest (set_playing (VTrack t) q0))) p).
Proof.
  intros F S R T H. unfold _playTrack. rewrite F, S, R, T.
  assert (E : ((length (VTrack t :: rest) <? 2)%nat && negb firstPlay && negb false)
              = false).
  { destruct H as [->|H]; [apply andb_false_iff; left; apply andb_false_r|].
    destruct rest; [congruence|reflexivity]. }
  rewrite E. cbn [js_shift].
  match goal with
  | |- _playYTDLStream _ _ _ _ (update a ?f p) = _ =>
      pose proof (update_store_eq a f p q S) as S1;
      rewrite (_playYTDLStream_request _ _ _ _ _ S1);
      destruct (update_frame a f p) as (_ & _ & _ & _ & -> & _)
  end.
  reflexivity.
Qed.

(** After [_playTrack] has advanced, the track that became current is no
    longer in the pending sequence. *)
Lemma _playTrack_shifts_current_out p g a q t rest firstPlay :
  findQueue p g = Some a -> store p !! a = Some q ->
  repeatMode q = false -> tracks q = VTrack t :: rest ->
  (firstPlay = true \/ rest <> []) ->
  session (_playTrack g firstPlay p) g =
    Some (set_lastSkipped false (set_tracks rest (set_playing (VTrack t) q))).
Proof.
  intros F S R T H. rewrite (_playTrack_advance p g a q t rest firstPlay F S R T H).
  match goal with
  | |- session (with_pipelines _ (update a ?f p)) g = _ =>
      change (session (update a f p) g = Some (f q))
  end.
  apply session_update; [exact F|exact S|reflexivity].
Qed.

(** C1. With pending [B, C] behind the current track A and repeat off,
    the finish of A makes B current and leaves [C] pending; the finish of
    B then removes the session and emits [end], and no pipeline is ever
    requested for C. *)
Theorem last_pending_track_is_never_played :
  let g := "guild-1" in
  let p0 := Scenario.exec
              [DoSetQueue g [VTrack Scenario.trackB; VTrack Scenario.trackC]]
              Scenario.started in
  let p1 := Scenario.exec [SignalFinish 0; TimerFires 1; SignalStart 1] p0 in
  let p2 := Scenario.exec [SignalFinish 1] p1 in
  (playing <$> session p0 g = Some (VTrack Scenario.A) /\
   tracks <$> session p0 g = Some [VTrack Scenario.trackB; VTrack Scenario.trackC] /\
   repeatMode <$> session p0 g = Some false) /\
  (playing <$> session p1 g = Some (VTrack Scenario.trackB) /\
   tracks <$> session p1 g = Some [VTrack Scenario.trackC]) /\
  session p2 g = None /\
  isPlaying g p2 = false /\
  emitted p2 =
    [(0, EvTrackChanged (VTrack Scenario.trackB) (VTrack Scenario.A) false false);
     (0, EvEnd)] /\
  pl_url <$> pipelines p2 = ["https://youtube.test/a"; "https://youtube.test/b"].
Proof. vm_compute. repeat split. Qed.

(** ** Commands that name the current track *)

(** [nowPlaying], and [pause] and [resume] when there is a dispatcher to
    pause, read the head of the pending sequence; [playing] has no part
    in the result. *)
Lemma nowPlaying_reads_tracks p g a q d :
  findQueue p g = Some a -> store p !! a = Some q ->
  dispatcher p a = Some d ->
  snd (nowPlaying g p) = Resolved (js_index (tracks q) 0) /\
  snd (pause g p) = Resolved (js_index (tracks q) 0) /\
  snd (resume g p) = Resolved (js_index (tracks q) 0).
Proof.
  intros F S D. unfold nowPlaying, pause, resume. rewrite F, S, D.
  repeat split.
Qed.

(** C3. While the pipeline streams A, [nowPlaying], [pause] and [resume]
    resolve with the head of the pending sequence: undefined when nothing
    is pending, the next track B when [B, C] is pending. *)
Theorem nowPlaying_resolves_with_the_head_of_the_pending_sequence :
  let g := "guild-1" in
  let p := Scenario.started in
  let p' := Scenario.exec
              [DoSetQueue g [VTrack Scenario.trackB; VTrack Scenario.trackC]] p in
  (playing <$> session p g = Some (VTrack Scenario.A) /\
   calls p = [(0, CPlay (url Scenario.A) [] None);
              (0, CSetVolumeLogarithmic (100 # 200))] /\
   snd (nowPlaying g p) = Resolved VUndefined /\
   snd (pause g p) = Resolved VUndefined /\
   snd (resume g p) = Resolved VUndefined) /\
  (playing <$> session p' g = Some (VTrack Scenario.A) /\
   snd (nowPlaying g p') = Resolved (VTrack Scenario.trackB) /\
   snd (pause g p') = Resolved (VTrack Scenario.trackB) /\
   snd (resume g p') = Resolved (VTrack Scenario.trackB)).
Proof. vm_compute. repeat split. Qed.

(** [clearQueue] keeps the head of the pending sequence. *)
Lemma clearQueue_keeps_head p g a q :
  findQueue p g = Some a -> store p !! a = Some q ->
  session (fst (clearQueue g p)) g = Some (set_tracks [js_index (tracks q) 0] q).
Proof.
  intros F S. unfold clearQueue. rewrite F. cbn [fst].
  erewrite session_update; [|exact F|exact S|reflexivity].
  cbv beta zeta. destruct (tracks q); reflexivity.
Qed.

(** C5. With A current and [B, C] pending, [clearQueue] leaves [B]
    pending: the entry kept is the next track, not the track that is
    playing, and the pending sequence is not emptied. *)
Theorem clearQueue_keeps_the_next_track :
  let g := "guild-1" in
  let p := Scenario.exec
             [DoSetQueue g [VTrack Scenario.trackB; VTrack Scenario.trackC]]
             Scenario.started in
  let p' := fst (clearQueue g p) in
  playing <$> session p g = Some (VTrack Scenario.A) /\
  playing <$> session p' g = Some (VTrack Scenario.A) /\
  tracks <$> session p' g = Some [VTrack Scenario.trackB] /\
  strict_eq (VTrack Scenario.trackB) (VTrack Scenario.A) = false.
Proof. vm_compute. repeat split. Qed.

(** ** Adding to the queue *)

(** [addToQueue] on an existing session rejects with the TypeError,
    whatever the provider would answer. *)
Lemma addToQueue_never_searches videoId ytsr p g a trackName requestedBy :
  findQueue p g = Some a ->
  addToQueue videoId ytsr g trackName requestedBy p
    = (p, Rejected (TypeError "this.search is not a function")).
Proof. intros F. unfold addToQueue. rewrite F. reflexivity. Qed.

(** What the callback of [addToQueue] does once a search has answered. *)
Lemma addToQueue_then_appends p g a q requestedBy t0 others :
  findQueue p g = Some a -> store p !! a = Some q ->
  let out := addToQueue_then a requestedBy (t0 :: others) p in
  snd out = Resolved (attribute requestedBy t0) /\
  session (fst out) g =
    Some (set_tracks (tracks q ++ [VTrack (attribute requestedBy t0)]) q).
Proof.
  intros F S. cbn. split; [reflexivity|].
  apply (session_update p g a q
           (fun q0 => set_tracks (tracks q0 ++ [VTrack (attribute requestedBy t0)]) q0));
    [exact F|exact S|reflexivity].
Qed.

Lemma addToQueue_then_not_found p a requestedBy :
  addToQueue_then a requestedBy [] p = (p, Rejected TrackNotFound).
Proof. reflexivity. Qed.

(** C4. For an existing session and a query for which the provider search
    of [searchTracks] yields two candidates, [addToQueue] rejects with a
    TypeError and appends nothing. *)
Theorem addToQueue_rejects_with_a_TypeError :
  snd (searchTracks Scenario.noVideoId Scenario.catalogue "never gonna"
         Scenario.started)
    = Resolved [mkTrack 0 "https://youtube.test/watch?v=dQw4w9WgXcQ" None;
                mkTrack 1 "https://youtube.test/watch?v=other" None] /\
  isPlaying "guild-1" Scenario.started = true /\
  addToQueue Scenario.noVideoId Scenario.catalogue "guild-1" "never gonna"
    Scenario.alice Scenario.started
    = (Scenario.started, Rejected (TypeError "this.search is not a function")).
Proof. vm_compute. repeat split. Qed.

(** ** The registry under [play] *)

Lemma filter_filter_length {A} (f h : A -> bool) (l : list A) :
  (forall x, f x = true -> h x = true) ->
  length (List.filter f (List.filter h l)) = length (List.filter f l).
Proof.
  intros I. induction l as [|x l IH]; simpl; [reflexivity|].
  destruct (h x) eqn:Eh; simpl.
  - destruct (f x); simpl; rewrite IH; reflexivity.
  - destruct (f x) eqn:Ef; [rewrite (I _ Ef) in Eh; discriminate|exact IH].
Qed.

Lemma filter_ext_in_bool {A} (f h : A -> bool) (l : list A) :
  (forall x, In x l -> f x = h x) -> List.filter f l = List.filter h l.
Proof.
  induction l as [|x l IH]; simpl; intros E; [reflexivity|].
  rewrite (E x) by (left; reflexivity).
  rewrite IH by (intros y Hy; apply E; right; exact Hy). reflexivity.
Qed.

(** Dropping the sessions of one key leaves those of another key. *)
Lemma registered_dropGuild p g g' :
  g <> g' -> registered (dropGuild g' p) g = registered p g.
Proof.
  intros N. unfold registered, dropGuild. cbn [queues with_queues].
  rewrite (filter_ext_bool (hasGuild (with_queues _ p) g) (hasGuild p g))
    by reflexivity.
  apply filter_filter_length. intros a. unfold hasGuild.
  destruct (store p !! a) as [q|]; [|discriminate].
  intros E. apply String.eqb_eq in E. rewrite E.
  destruct (String.eqb g g') eqn:E'; [|reflexivity].
  apply String.eqb_eq in E'. contradiction.
Qed.

Lemma registered_update a f p g :
  (forall q, guildID (f q) = guildID q) ->
  registered (update a f p) g = registered p g.
Proof.
  intros G. unfold registered.
  destruct (update_frame a f p) as (-> & _).
  rewrite (filter_ext_bool (hasGuild (update a f p) g) (hasGuild p g));
    [reflexivity|]. intros b. apply hasGuild_update, G.
Qed.

Lemma registered__playYTDLStream a updateFilter streamTime k p g :
  registered (_playYTDLStream a updateFilter streamTime k p) g = registered p g.
Proof.
  unfold _playYTDLStream. destruct (store p !! a) as [q|]; [|reflexivity].
  destruct (currentStreamTime a updateFilter streamTime p); [|reflexivity].
  destruct (playing q); reflexivity.
Qed.

(** The first play of a session never unregisters anything. *)
Lemma registered__playTrack_firstPlay p g g' :
  registered (_playTrack g' true p) g = registered p g.
Proof.
  unfold _playTrack. destruct (findQueue p g') as [a|]; [|reflexivity].
  destruct (store p !! a) as [q|]; [|reflexivity].
  rewrite andb_false_r. cbn [andb].
  destruct (if repeatMode q then (playing q, tracks q) else js_shift (tracks q))
    as [nowPlaying rest].
  rewrite registered__playYTDLStream. apply registered_update. reflexivity.
Qed.

(** [play] with a Track on a voice channel whose id differs from the id of
    its guild adds a session for the guild and removes none of that
    guild. *)
Lemma play_adds_a_session videoId ytsr p vc t user :
  registry_wf p -> vc_id vc <> vc_guild_id vc ->
  registered (fst (play videoId ytsr vc (ArgTrack t) user p)) (vc_guild_id vc)
    = S (registered p (vc_guild_id vc)).
Proof.
  intros WF N. unfold play. cbn [fst].
  rewrite registered__playTrack_firstPlay.
  set (p0 := dropGuild (vc_id vc) p).
  assert (R0 : registered p0 (vc_guild_id vc) = registered p (vc_guild_id vc))
    by (apply registered_dropGuild; congruence).
  rewrite <- R0. unfold registered. cbn [queues store with_queues with_store].
  rewrite List.filter_app, length_app.
  set (queue := play_queue _ _ _).
  set (p2 := with_queues _ _).
  assert (WF0 : forall a, In a (queues p0) -> a < length (store p0)).
  { intros a Ha. apply WF. unfold p0, dropGuild in Ha. cbn in Ha.
    apply List.filter_In in Ha. tauto. }
  rewrite (filter_ext_in_bool (hasGuild p2 (vc_guild_id vc))
             (hasGuild p0 (vc_guild_id vc))).
  - assert (E : hasGuild p2 (vc_guild_id vc) (length (store p0)) = true).
    { unfold hasGuild, p2. cbn [store with_queues with_store].
      rewrite list_lookup_middle by reflexivity. apply String.eqb_refl. }
    cbn [List.filter]. rewrite E. simpl. lia.
  - intros a Ha. unfold hasGuild, p2. cbn [store with_queues with_store].
    rewrite lookup_app_l by (apply WF0, Ha). reflexivity.
Qed.

Lemma same_objects_refl p : same_objects p p.
Proof. split; auto. Qed.

Lemma same_objects_trans p1 p2 p3 :
  same_objects p1 p2 -> same_objects p2 p3 -> same_objects p1 p3.
Proof. intros [A1 B1] [A2 B2]. split; [auto|congruence]. Qed.

Lemma same_objects_update a f p : same_objects p (update a f p).
Proof.
  unfold update. destruct (store p !! a); [|apply same_objects_refl].
  split; [auto|]. simpl. apply length_insert.
Qed.

Lemma same_objects_call a c p : same_objects p (call a c p).
Proof. split; auto. Qed.

Lemma same_objects_emit a e p : same_objects p (emit a e p).
Proof. split; auto. Qed.

Lemma same_objects_pipelines l p : same_objects p (with_pipelines l p).
Proof. split; auto. Qed.

Lemma same_objects_dropGuild g p : same_objects p (dropGuild g p).
Proof.
  split; [|reflexivity]. intros a H. unfold dropGuild in H. cbn in H.
  apply List.filter_In in H. tauto.
Qed.

Lemma same_objects_set_dispatcher c d p : same_objects p (set_dispatcher c d p).
Proof. split; auto. Qed.

Lemma same_objects_leave a p : same_objects p (leave a p).
Proof.
  destruct (leave_frame a p) as (S & Q & _). split.
  - rewrite Q. auto.
  - rewrite S. reflexivity.
Qed.

Lemma same_objects_dispatcher_gone i a p : same_objects p (dispatcher_gone i a p).
Proof.
  destruct (dispatcher_gone_frame i a p) as (S & Q & _). split.
  - rewrite Q. auto.
  - rewrite S. reflexivity.
Qed.

Lemma same_objects__playYTDLStream a u st k p :
  same_objects p (_playYTDLStream a u st k p).
Proof.
  unfold _playYTDLStream. destruct (store p !! a) as [q|];
    [|apply same_objects_refl].
  destruct (currentStreamTime a u st p); [|apply same_objects_refl].
  destruct (playing q);
    [apply same_objects_refl|apply same_objects_refl|apply same_objects_pipelines].
Qed.

(** Peels the writes of a command off, outermost first. *)
Ltac peel :=
  repeat match goal with
         | |- same_objects ?p ?p => apply same_objects_refl
         | |- same_objects _ (update _ _ _) =>
             eapply same_objects_trans; [|apply same_objects_update]
         | |- same_objects _ (call _ _ _) =>
             eapply same_objects_trans; [|apply same_objects_call]
         | |- same_objects _ (emit _ _ _) =>
             eapply same_objects_trans; [|apply same_objects_emit]
         | |- same_objects _ (with_pipelines _ _) =>
             eapply same_objects_trans; [|apply same_objects_pipelines]
         | |- same_objects _ (dropGuild _ _) =>
             eapply same_objects_trans; [|apply same_objects_dropGuild]
         | |- same_objects _ (set_dispatcher _ _ _) =>
             eapply same_objects_trans; [|apply same_objects_set_dispatcher]
         | |- same_objects _ (leave _ _) =>
             eapply same_objects_trans; [|apply same_objects_leave]
         | |- same_objects _ (dispatcher_gone _ _ _) =>
             eapply same_objects_trans; [|apply same_objects_dispatcher_gone]
         | |- same_objects _ (_playYTDLStream _ _ _ _ _) =>
             eapply same_objects_trans; [|apply same_objects__playYTDLStream]
         end.

Lemma same_objects__playTrack g firstPlay p :
  same_objects p (_playTrack g firstPlay p).
Proof.
  unfold _playTrack. destruct (findQueue p g) as [a|]; [|peel].
  destruct (store p !! a) as [q|]; [|peel].
  destruct ((length (tracks q) <? 2)%nat && negb firstPlay && negb (repeatMode q)).
  - destruct (leaveOnEnd (options p) && negb (stopped q)), (stopped q),
      (leaveOnStop (options p)); cbv zeta; peel.
  - destruct (if repeatMode q then (playing q, tracks q) else js_shift (tracks q)).
    peel.
Qed.

Lemma registry_wf_same_objects p p' :
  same_objects p p' -> registry_wf p -> registry_wf p'.
Proof. intros [A B] WF a H. rewrite B. apply WF, A, H. Qed.

Lemma registry_wf_play videoId ytsr vc track user p :
  registry_wf p -> registry_wf (fst (play videoId ytsr vc track user p)).
Proof.
  intros WF. unfold play.
  set (p0 := dropGuild (vc_id vc) p).
  assert (WF0 : registry_wf p0)
    by (eapply registry_wf_same_objects; [apply same_objects_dropGuild|exact WF]).
  assert (K : forall p1 t0, registry_wf p1 ->
            registry_wf
              (_playTrack (vc_guild_id vc) true
                 (with_queues (queues p1 ++ [length (store p1)])
                    (with_store
                       (store p1 ++
                          [play_queue vc (vc_id vc) (attribute user t0)]) p1)))).
  { intros p1 t0 WF1.
    eapply registry_wf_same_objects; [apply same_objects__playTrack|].
    intros a H. cbn [queues store with_queues with_store] in *.
    rewrite length_app. simpl. apply in_app_or in H as [H|[<-|[]]].
    - apply WF1 in H. lia.
    - lia. }
  destruct track as [t|query].
  - apply K, WF0.
  - unfold searchTracks. destruct (ytsr (default query (videoId query))) as [items|].
    + cbn [fst snd]. set (res := imap _ _).
      destruct (head res) as [t0|]; cbn [fst].
      * apply K. exact WF0.
      * exact WF0.
    + exact WF0.
Qed.

Lemma registry_wf_step videoId ytsr sortRandom s p :
  registry_wf p -> registry_wf (step videoId ytsr sortRandom s p).
Proof.
  intros WF. destruct s; cbn [step];
    try (apply registry_wf_play; exact WF);
    (eapply registry_wf_same_objects; [|exact WF]).
  - unfold pause. destruct (findQueue p g) as [a|];
      [destruct (dispatcher p a)|]; cbn [fst]; peel.
  - unfold resume. destruct (findQueue p g) as [a|];
      [destruct (dispatcher p a)|]; cbn [fst]; peel.
  - unfold stop. destruct (findQueue p g) as [a|];
      [destruct (dispatcher p a)|]; cbn [fst]; peel.
  - unfold setVolume. destruct (findQueue p g) as [a|];
      [destruct (dispatcher p a)|]; cbn [fst]; peel.
  - destruct (findQueue p g) as [a|] eqn:F.
    + rewrite (addToQueue_never_searches _ _ _ _ _ _ _ F). cbn [fst]. peel.
    + unfold addToQueue. rewrite F. cbn [fst]. peel.
  - unfold setQueue. destruct (findQueue p g); cbn [fst]; peel.
  - unfold clearQueue. destruct (findQueue p g); cbn [fst]; peel.
  - unfold skip. destruct (findQueue p g) as [a|];
      [destruct (dispatcher p a)|]; cbn [fst]; peel.
  - unfold nowPlaying. destruct (findQueue p g); cbn [fst]; peel.
  - unfold setRepeatMode. destruct (findQueue p g); cbn [fst]; peel.
  - unfold shuffle. destruct (findQueue p g); cbn [fst]; peel.
  - unfold remove. destruct (findQueue p g); cbn [fst]; [|peel].
    match goal with |- context [if ?b then _ else _] => destruct b end;
      peel.
  - unfold updateFilters. destruct (findQueue p g); cbn [fst]; peel.
  - unfold _handleVoiceStateUpdate.
    destruct (negb (leaveOnEmpty (options p))); [peel|].
    destruct oldChannel as [ch|], newChannel; peel.
    match goal with |- context [List.find ?f ?l] => destruct (List.find f l) end;
      [|peel].
    destruct (1 <? membersSize)%nat; peel.
  - unfold timer_fires. destruct (pipelines p !! i) as [pl|]; [|peel].
    destruct (pl_stage pl), (store p !! pl_queue pl); cbv zeta; peel.
  - unfold dispatcher_start. destruct (pipelines p !! i) as [pl|]; [|peel].
    destruct (pl_stage pl), (store p !! pl_queue pl); peel.
    destruct (pl_then pl) as [k|]; [|peel].
    destruct (negb (k_firstPlay k)); peel.
  - unfold dispatcher_finish. destruct (pipelines p !! i) as [pl|]; [|peel].
    destruct (pl_stage pl), (store p !! pl_queue pl); cbv zeta; peel;
      (eapply same_objects_trans; [|apply same_objects__playTrack]); peel.
Qed.

(** The registry of a reachable Player names queue objects only. *)
Lemma reachable_registry_wf videoId ytsr sortRandom p :
  reachable videoId ytsr sortRandom p -> registry_wf p.
Proof.
  intros (o & steps & ->).
  assert (W : registry_wf (Player_new o)) by (intros a []).
  revert W. generalize (Player_new o).
  induction steps as [|s steps IH]; intros p0 W; [exact W|].
  apply IH, registry_wf_step, W.
Qed.

(** In every reachable state, [play] on a voice channel of a guild that
    has a session leaves at least two sessions registered for it. *)
Lemma reachable_play_duplicates videoId ytsr sortRandom p vc t user :
  reachable videoId ytsr sortRandom p ->
  vc_id vc <> vc_guild_id vc ->
  isPlaying (vc_guild_id vc) p = true ->
  2 <= registered (fst (play videoId ytsr vc (ArgTrack t) user p)) (vc_guild_id vc).
Proof.
  intros R N I.
  rewrite play_adds_a_session
    by (try exact N; eapply reachable_registry_wf; exact R).
  assert (0 < registered p (vc_guild_id vc)); [|lia].
  unfold registered, isPlaying in *.
  induction (queues p) as [|a l IH]; simpl in *; [discriminate|].
  destruct (hasGuild p (vc_guild_id vc) a); simpl; [lia|]. apply IH, I.
Qed.

(** C2. A second [play] on a voice channel of the same guild leaves the
    session of that guild registered and registers another one: the
    registry, reached from the constructor by two calls of [play], holds
    two sessions for one key. *)
Theorem play_registers_a_second_session_for_the_key :
  let p := fst (play Scenario.noVideoId Scenario.catalogue Scenario.lounge
                  (ArgTrack Scenario.trackB) Scenario.alice Scenario.started) in
  registered Scenario.started "guild-1" = 1 /\
  registered p "guild-1" = 2 /\
  queues p = [0; 1] /\
  guildID <$> store p !! 0 = Some "guild-1" /\
  guildID <$> store p !! 1 = Some "guild-1" /\
  reachable Scenario.noVideoId Scenario.catalogue Scenario.keepOrder p.
Proof.
  cbv zeta. do 5 (split; [vm_compute; reflexivity|]).
  exists defaultPlayerOptions,
    [DoPlay Scenario.lounge (ArgTrack Scenario.trackA) Scenario.alice;
     TimerFires 0; SignalStart 0;
     DoPlay Scenario.lounge (ArgTrack Scenario.trackB) Scenario.alice].
  vm_compute. reflexivity.
Qed.

(** ** Who sets [lastSkipped], and who reads it *)

Lemma no_new_skip_refl p : no_new_skip p p.
Proof. intros a H. exact H. Qed.

Lemma no_new_skip_trans p1 p2 p3 :
  no_new_skip p1 p2 -> no_new_skip p2 p3 -> no_new_skip p1 p3.
Proof. intros A B a H. apply A, B, H. Qed.

Lemma no_new_skip_same_store p p' : store p' = store p -> no_new_skip p p'.
Proof. intros E a H. rewrite <- E. exact H. Qed.

Lemma no_new_skip_update a f p :
  (forall q, lastSkipped (f q) = true -> lastSkipped q = true) ->
  no_new_skip p (update a f p).
Proof.
  intros Hf b H. destruct (decide (b = a)) as [->|N].
  - destruct (store p !! a) as [q|] eqn:E.
    + rewrite (update_store_eq _ _ _ _ E) in H. simpl in *.
      injection H as H. rewrite (Hf _ H). reflexivity.
    + unfold update in H. rewrite E in H. rewrite E in H. discriminate H.
  - rewrite update_store_ne in H by exact N. exact H.
Qed.

Lemma store_leave a p : store (leave a p) = store p.
Proof. apply leave_frame. Qed.

Lemma store_dispatcher_gone i a p : store (dispatcher_gone i a p) = store p.
Proof. apply dispatcher_gone_frame. Qed.

(** Reduces the store of a state to the store it was built on. *)
Ltac same_store :=
  repeat first
    [ rewrite store_leave
    | rewrite store_dispatcher_gone
    | progress cbn [store emit call dropGuild with_queues with_pipelines
                    with_dispatchers set_dispatcher] ];
  try reflexivity.

Lemma no_new_skip__playYTDLStream a u st k p :
  no_new_skip p (_playYTDLStream a u st k p).
Proof.
  apply no_new_skip_same_store. unfold _playYTDLStream.
  destruct (store p !! a) as [q|]; [|reflexivity].
  destruct (currentStreamTime a u st p); [|reflexivity].
  destruct (playing q); reflexivity.
Qed.

(** [_playTrack] never sets the flag: it clears it or leaves the store. *)
Lemma no_new_skip__playTrack g firstPlay p :
  no_new_skip p (_playTrack g firstPlay p).
Proof.
  unfold _playTrack. destruct (findQueue p g) as [a|]; [|apply no_new_skip_refl].
  destruct (store p !! a) as [q|]; [|apply no_new_skip_refl].
  destruct ((length (tracks q) <? 2)%nat && negb firstPlay && negb (repeatMode q)).
  - apply no_new_skip_same_store.
    destruct (leaveOnEnd (options p) && negb (stopped q)), (stopped q),
      (leaveOnStop (options p)); cbv zeta; same_store.
  - destruct (if repeatMode q then (playing q, tracks q) else js_shift (tracks q)).
    eapply no_new_skip_trans; [|apply no_new_skip__playYTDLStream].
    apply no_new_skip_update. intros q0 H. discriminate H.
Qed.

(** A command that assigns a field other than [lastSkipped]. *)
Ltac other_field :=
  first
    [ apply no_new_skip_refl
    | apply no_new_skip_same_store; reflexivity
    | eapply no_new_skip_trans;
      [|apply no_new_skip_update; intros q0 H0;
        try (destruct (js_shift (tracks q0)));
        exact H0];
      apply no_new_skip_same_store; reflexivity ].

Lemma no_new_skip_play videoId ytsr vc track user p :
  no_new_skip p (fst (play videoId ytsr vc track user p)).
Proof.
  unfold play.
  assert (K : forall p1 t0, store p1 = store p ->
            no_new_skip p
              (_playTrack (vc_guild_id vc) true
                 (with_queues (queues p1 ++ [length (store p1)])
                    (with_store
                       (store p1 ++
                          [play_queue vc (vc_id vc) (attribute user t0)]) p1)))).
  { intros p1 t0 E.
    eapply no_new_skip_trans; [|apply no_new_skip__playTrack].
    intros a H. cbn [store with_queues with_store] in H. rewrite <- E.
    destruct (decide (a < length (store p1))) as [L|L].
    - rewrite lookup_app_l in H by exact L. exact H.
    - destruct (decide (a = length (store p1))) as [->|N].
      + rewrite list_lookup_middle in H by reflexivity. discriminate H.
      + rewrite lookup_ge_None_2 in H; [discriminate H|].
        rewrite length_app. simpl. lia. }
  destruct track as [t|query].
  - apply K. reflexivity.
  - unfold searchTracks. destruct (ytsr (default query (videoId query))) as [items|].
    + cbn [fst snd]. set (res := imap _ _).
      destruct (head res) as [t0|]; cbn [fst].
      * apply K. reflexivity.
      * apply no_new_skip_same_store. reflexivity.
    + apply no_new_skip_same_store. reflexivity.
Qed.

(** [lastSkipped] becomes true only through [skip]: no other command and
    no signal sets it on any queue object. *)
Lemma lastSkipped_only_by_skip videoId ytsr sortRandom s p :
  (forall g, s <> DoSkip g) ->
  no_new_skip p (step videoId ytsr sortRandom s p).
Proof.
  intros NS. destruct s; cbn [step]; try (exfalso; eapply NS; reflexivity).
  - apply no_new_skip_play.
  - unfold pause. destruct (findQueue p g) as [a|];
      [destruct (dispatcher p a)|]; cbn [fst]; other_field.
  - unfold resume. destruct (findQueue p g) as [a|];
      [destruct (dispatcher p a)|]; cbn [fst]; other_field.
  - unfold stop. destruct (findQueue p g) as [a|]; cbn [fst]; [|other_field].
    destruct (dispatcher p a); cbn [fst];
      (eapply no_new_skip_trans; [|apply no_new_skip_same_store; reflexivity]);
      apply no_new_skip_update; intros q0 H0; exact H0.
  - unfold setVolume. destruct (findQueue p g) as [a|];
      [destruct (dispatcher p a)|]; cbn [fst]; other_field.
  - destruct (findQueue p g) as [a|] eqn:F.
    + rewrite (addToQueue_never_searches _ _ _ _ _ _ _ F). apply no_new_skip_refl.
    + unfold addToQueue. rewrite F. apply no_new_skip_refl.
  - unfold setQueue. destruct (findQueue p g); cbn [fst]; other_field.
  - unfold clearQueue. destruct (findQueue p g); cbn [fst]; other_field.
  - unfold nowPlaying. destruct (findQueue p g); cbn [fst]; other_field.
  - unfold setRepeatMode. destruct (findQueue p g); cbn [fst]; other_field.
  - unfold shuffle. destruct (findQueue p g); cbn [fst]; other_field.
  - unfold remove. destruct (findQueue p g); cbn [fst]; [|other_field].
    match goal with |- context [if ?b then _ else _] => destruct b end;
      other_field.
  - unfold updateFilters. destruct (findQueue p g); cbn [fst]; [|other_field].
    eapply no_new_skip_trans; [|apply no_new_skip__playYTDLStream].
    other_field.
  - apply no_new_skip_same_store. unfold _handleVoiceStateUpdate.
    destruct (negb (leaveOnEmpty (options p))); [reflexivity|].
    destruct oldChannel as [ch|], newChannel; try reflexivity.
    match goal with |- context [List.find ?f ?l] => destruct (List.find f l) end;
      [|reflexivity].
    destruct (1 <? membersSize)%nat; same_store.
  - apply no_new_skip_same_store. unfold timer_fires.
    destruct (pipelines p !! i) as [pl|]; [|reflexivity].
    destruct (pl_stage pl), (store p !! pl_queue pl); reflexivity.
  - apply no_new_skip_same_store. unfold dispatcher_start.
    destruct (pipelines p !! i) as [pl|]; [|reflexivity].
    destruct (pl_stage pl), (store p !! pl_queue pl); try reflexivity.
    destruct (pl_then pl) as [k|]; [|reflexivity].
    destruct (negb (k_firstPlay k)); reflexivity.
  - unfold dispatcher_finish. destruct (pipelines p !! i) as [pl|];
      [|apply no_new_skip_refl].
    destruct (pl_stage pl), (store p !! pl_queue pl);
      try apply no_new_skip_refl;
      (eapply no_new_skip_trans; [|apply no_new_skip__playTrack]);
      apply no_new_skip_same_store; cbv zeta; same_store.
Qed.

(** A skip, the finish it causes and the start of the next pipeline: the
    flag set by the skip is cleared before the event reads it. *)
Lemma skipped_transition_reports_false p g a q d t rest :
  findQueue p g = Some a -> store p !! a = Some q ->
  dispatcher p a = Some d ->
  repeatMode q = false -> tracks q = VTrack t :: rest -> rest <> [] ->
  let n := length (pipelines p) in
  let p1 := fst (skip g p) in
  let p2 := _playTrack g false p1 in
  lastSkipped <$> session p1 g = Some true /\
  emitted (dispatcher_start n (timer_fires n p2)) =
    emitted p ++ [(a, EvTrackChanged (VTrack t) (playing q) false false)].
Proof.
  intros F S D R T H n p1 p2.
  assert (E1 : p1 = update a (set_lastSkipped true) (call a CEnd p)).
  { unfold p1, skip. rewrite F, D. reflexivity. }
  assert (F1 : findQueue p1 g = Some a).
  { rewrite E1, findQueue_update by reflexivity. exact F. }
  assert (S1 : store p1 !! a = Some (set_lastSkipped true q)).
  { rewrite E1. apply update_store_eq. exact S. }
  split.
  { unfold session. rewrite F1. simpl. rewrite S1. reflexivity. }
  unfold p2.
  rewrite (_playTrack_advance p1 g a _ t rest false F1 S1 R T (or_intror H)).
  set (f := fun q0 => set_lastSkipped false
                        (set_tracks rest (set_playing (VTrack t) q0))).
  set (p1' := update a f p1).
  assert (S2 : store p1' !! a = Some (f (set_lastSkipped true q)))
    by (apply update_store_eq, S1).
  destruct (update_frame a f p1) as (_ & _ & He & _ & Hp & _).
  fold p1' in He, Hp.
  assert (Hp1 : pipelines p1 = pipelines p).
  { rewrite E1. destruct (update_frame a (set_lastSkipped true) (call a CEnd p))
      as (_ & _ & _ & _ & -> & _). reflexivity. }
  assert (He1 : emitted p1 = emitted p).
  { rewrite E1. destruct (update_frame a (set_lastSkipped true) (call a CEnd p))
      as (_ & _ & -> & _). reflexivity. }
  unfold n. rewrite <- Hp1, <- Hp.
  match goal with
  | |- context [with_pipelines (_ ++ [?pl]) p1'] =>
      rewrite (requested_pipeline_start p1' pl _ S2 eq_refl)
  end.
  cbn [pl_then k_firstPlay negb pl_queue k_nowPlaying k_wasPlaying].
  rewrite He, He1. unfold f.
  cbn [lastSkipped repeatMode set_lastSkipped set_tracks set_playing].
  rewrite R. reflexivity.
Qed.

(** C7. A skip sets [lastSkipped], the finish it causes resets the flag
    before the new pipeline starts, and the track-changed event of the
    skipped transition carries [lastSkipped = false]. *)
Theorem skip_is_reported_with_lastSkipped_false :
  let g := "guild-1" in
  let p0 := Scenario.exec
              [DoSetQueue g [VTrack Scenario.trackB; VTrack Scenario.trackC];
               DoSkip g] Scenario.started in
  let p1 := Scenario.exec [SignalFinish 0] p0 in
  let p2 := Scenario.exec [TimerFires 1; SignalStart 1] p1 in
  (lastSkipped <$> session p0 g = Some true /\
   last (calls p0) = Some (0, CEnd)) /\
  lastSkipped <$> session p1 g = Some false /\
  emitted p2 =
    [(0, EvTrackChanged (VTrack Scenario.trackB) (VTrack Scenario.A) false false)].
Proof. vm_compute. repeat split. Qed.

(** * Further properties of the Player *)

(** ** Commands without a session *)

(** X1. When no session is registered for the key, every command rejects
    with the error "Not playing" and leaves the Player as it was;
    [getQueue] finds nothing. *)
Theorem commands_reject_without_a_session
    (videoId : string -> option string)
    (ytsr : string -> option (list VideoItem))
    (sortRandom : list value -> list value)
    (p : Player) (g : Snowflake) :
  isPlaying g p = false ->
  getQueue g p = None /\
  pause g p = (p, Rejected (JsError "Not playing")) /\
  resume g p = (p, Rejected (JsError "Not playing")) /\
  stop g p = (p, Rejected (JsError "Not playing")) /\
  (forall percent, setVolume g percent p = (p, Rejected (JsError "Not playing"))) /\
  (forall name user,
      addToQueue videoId ytsr g name user p = (p, Rejected (JsError "Not playing"))) /\
  (forall l, setQueue g l p = (p, Rejected (JsError "Not playing"))) /\
  clearQueue g p = (p, Rejected (JsError "Not playing")) /\
  skip g p = (p, Rejected (JsError "Not playing")) /\
  nowPlaying g p = (p, Rejected (JsError "Not playing")) /\
  (forall enabled, setRepeatMode g enabled p = (p, Rejected (JsError "Not playing"))) /\
  shuffle sortRandom g p = (p, Rejected (JsError "Not playing")) /\
  (forall track, remove g track p = (p, Rejected (JsError "Not playing"))) /\
  (forall newFilters streamTime,
      updateFilters g newFilters streamTime p = (p, Rejected (JsError "Not playing"))).
Proof.
  intros H. apply isPlaying_findQueue in H.
  unfold getQueue, pause, resume, stop, setVolume, addToQueue, setQueue,
    clearQueue, skip, nowPlaying, setRepeatMode, shuffle, remove, updateFilters.
  rewrite H. repeat split.
Qed.

Lemma commands_reject_without_a_session_witness :
  skip "guild-9" Scenario.started
    = (Scenario.started, Rejected (JsError "Not playing")) /\
  setVolume "guild-9" 30 Scenario.started
    = (Scenario.started, Rejected (JsError "Not playing")).
Proof.
  destruct (commands_reject_without_a_session
              Scenario.noVideoId Scenario.catalogue Scenario.keepOrder
              Scenario.started "guild-9" eq_refl)
    as (_ & _ & _ & _ & Hv & _ & _ & _ & Hs & _).
  split; [exact Hs|apply Hv].
Defined.

(** ** Pausing and editing the queue *)

Lemma set_paused_id q : set_paused (paused q) q = q.
Proof. destruct q. reflexivity. Qed.

(** X2. [pause] then [resume] on an existing session whose connection
    has a dispatcher sends pause() and resume() to the dispatcher, in this
    order, ends with the paused flag off and changes no other field, no
    other session and no pipeline; when the session was not paused before,
    its state is the one it had. *)
Theorem pause_then_resume_restores_the_session
    (p : Player) (g : Snowflake) (a : nat) (q : Queue) (d : nat) :
  findQueue p g = Some a ->
  store p !! a = Some q ->
  dispatcher p a = Some d ->
  let p1 := fst (pause g p) in
  let p2 := fst (resume g p1) in
  session p1 g = Some (set_paused true q) /\
  session p2 g = Some (set_paused false q) /\
  calls p2 = calls p ++ [(a, CPause); (a, CResume)] /\
  (forall b, b <> a -> store p2 !! b = store p !! b) /\
  queues p2 = queues p /\ emitted p2 = emitted p /\
  pipelines p2 = pipelines p /\
  (paused q = false -> store p2 = store p).
Proof.
  intros F S D. unfold pause. rewrite F, D. cbn [fst].
  set (p1 := update a (set_paused true) (call a CPause p)).
  assert (F1 : findQueue p1 g = Some a).
  { unfold p1. rewrite findQueue_update by reflexivity. exact F. }
  assert (S1 : store p1 !! a = Some (set_paused true q)).
  { unfold p1. apply update_store_eq. exact S. }
  assert (D1 : dispatcher p1 a = Some d).
  { unfold p1. rewrite dispatcher_update by reflexivity. exact D. }
  unfold resume. rewrite F1, D1. cbn [fst].
  set (p2 := update a (set_paused false) (call a CResume p1)).
  assert (S2 : store p2 !! a = Some (set_paused false q)).
  { unfold p2. erewrite update_store_eq; [|exact S1]. reflexivity. }
  destruct (update_frame a (set_paused true) (call a CPause p))
    as (Q1 & _ & E1 & C1 & P1 & _). fold p1 in Q1, E1, C1, P1.
  destruct (update_frame a (set_paused false) (call a CResume p1))
    as (Q2 & _ & E2 & C2 & P2 & _). fold p2 in Q2, E2, C2, P2.
  split; [unfold session; rewrite F1; exact S1|].
  split.
  { unfold session, p2. rewrite findQueue_update by reflexivity.
    change (findQueue (call a CResume p1) g) with (findQueue p1 g).
    rewrite F1. exact S2. }
  split.
  { rewrite C2. cbn [calls call]. rewrite C1. cbn [calls call].
    rewrite <- app_assoc. reflexivity. }
  split.
  { intros b N. unfold p2. rewrite update_store_ne by exact N.
    cbn [store call]. unfold p1. rewrite update_store_ne by exact N. reflexivity. }
  split; [rewrite Q2; exact Q1|]. split; [rewrite E2; exact E1|].
  split; [rewrite P2; exact P1|].
  intros Hp. apply list_eq. intros b.
  destruct (decide (b = a)) as [->|N].
  - rewrite S2, S. f_equal. rewrite <- Hp. apply set_paused_id.
  - unfold p2. rewrite update_store_ne by exact N.
    cbn [store call]. unfold p1. rewrite update_store_ne by exact N. reflexivity.
Qed.

Lemma pause_then_resume_restores_the_session_witness :
  let p2 := fst (resume "guild-1" (fst (pause "guild-1" Scenario.started))) in
  store p2 = store Scenario.started /\
  calls p2 = calls Scenario.started ++ [(0, CPause); (0, CResume)].
Proof.
  destruct (pause_then_resume_restores_the_session
              Scenario.started "guild-1" 0
              (default (Queue_new "") (store Scenario.started !! 0)) 0)
    as (_ & _ & Hc & _ & _ & _ & _ & Hs).
  - reflexivity.
  - reflexivity.
  - reflexivity.
  - split; [apply Hs; reflexivity|exact Hc].
Defined.

Lemma update_edits_queue_only a f p :
  (forall q, playing (f q) = playing q) ->
  edits_queue_only p (update a f p) a.
Proof.
  intros Hf. destruct (update_frame a f p) as (Q & _ & E & C & P & _).
  pose proof (update_dispatchers a f p) as D.
  repeat split; try assumption.
  - destruct (store p !! a) as [q|] eqn:S.
    + rewrite (update_store_eq _ _ _ _ S). simpl. rewrite Hf. reflexivity.
    + unfold update. rewrite S, S. reflexivity.
  - intros b N. rewrite update_store_ne by exact N. reflexivity.
Qed.

Lemma edits_queue_only_refl p a : edits_queue_only p p a.
Proof. repeat split. Qed.

(** X3. The commands that edit the queue ([setQueue], [clearQueue],
    [shuffle], [remove], [setRepeatMode]) leave the current track of the
    session alone and, the arrays of pending tracks apart, every other
    queue object as it was: they send nothing to the transport, emit
    nothing, request no pipeline and leave the registry as it was. *)
Theorem queue_edits_leave_the_current_track
    (sortRandom : list value -> list value)
    (p : Player) (g : Snowflake) (a : nat) :
  findQueue p g = Some a ->
  (forall l, edits_queue_only p (fst (setQueue g l p)) a) /\
  edits_queue_only p (fst (clearQueue g p)) a /\
  edits_queue_only p (fst (shuffle sortRandom g p)) a /\
  (forall track, edits_queue_only p (fst (remove g track p)) a) /\
  (forall enabled, edits_queue_only p (fst (setRepeatMode g enabled p)) a).
Proof.
  intros F. unfold setQueue, clearQueue, shuffle, remove, setRepeatMode.
  rewrite F. cbn [fst].
  split; [|split; [|split; [|split]]].
  - intros l. apply update_edits_queue_only. reflexivity.
  - apply update_edits_queue_only. reflexivity.
  - apply update_edits_queue_only. intros q.
    destruct (js_shift (tracks q)). reflexivity.
  - intros track.
    match goal with |- context [if ?b then _ else _] => destruct b end.
    + apply update_edits_queue_only. reflexivity.
    + apply edits_queue_only_refl.
  - intros enabled. apply update_edits_queue_only. reflexivity.
Qed.

Lemma queue_edits_leave_the_current_track_witness :
  let p := fst (clearQueue "guild-1" Scenario.started) in
  playing <$> store p !! 0 = Some (VTrack Scenario.A) /\
  pipelines p = pipelines Scenario.started /\
  calls p = calls Scenario.started.
Proof.
  destruct (queue_edits_leave_the_current_track
              Scenario.keepOrder Scenario.started "guild-1" 0)
    as (_ & (Hp & _ & _ & Hc & _ & Hl & _) & _).
  - reflexivity.
  - cbv zeta. rewrite Hp. split; [reflexivity|]. split; assumption.
Defined.

(** X4. [shuffle] on a session whose queue is not empty resolves with the
    queue, keeps the first entry in front and leaves behind it a
    rearrangement of the other entries: nothing is lost or duplicated. *)
Theorem shuffle_keeps_the_head_and_the_entries
    (sortRandom : list value -> list value)
    (p : Player) (g : Snowflake) (a : nat) (q : Queue)
    (hd : value) (rest : list value) :
  (forall l, Permutation l (sortRandom l)) ->
  findQueue p g = Some a ->
  store p !! a = Some q ->
  tracks q = hd :: rest ->
  snd (shuffle sortRandom g p) = Resolved a /\
  exists rest',
    session (fst (shuffle sortRandom g p)) g = Some (set_tracks (hd :: rest') q) /\
    Permutation rest rest' /\
    Permutation (tracks q) (hd :: rest') /\
    length (hd :: rest') = length (tracks q).
Proof.
  intros Perm F S T. unfold shuffle. rewrite F. cbn [fst snd].
  split; [reflexivity|]. exists (sortRandom rest).
  split.
  - erewrite session_update; [|exact F|exact S|].
    + cbv beta. rewrite T. reflexivity.
    + intros q0. destruct (js_shift (tracks q0)). reflexivity.
  - split; [apply Perm|]. rewrite T. split.
    + constructor. apply Perm.
    + simpl. f_equal. symmetry. apply Permutation_length, Perm.
Qed.

Lemma shuffle_keeps_the_head_and_the_entries_witness :
  let p := Scenario.exec
             [DoSetQueue "guild-1"
                [VTrack Scenario.trackA; VTrack Scenario.trackB; VTrack Scenario.trackC]]
             Scenario.started in
  exists rest',
    tracks <$> session (fst (shuffle (@rev value) "guild-1" p)) "guild-1"
      = Some (VTrack Scenario.trackA :: rest') /\
    Permutation [VTrack Scenario.trackB; VTrack Scenario.trackC] rest'.
Proof.
  intros p.
  destruct (shuffle_keeps_the_head_and_the_entries
              (@rev value) p "guild-1" 0
              (default (Queue_new "") (store p !! 0))
              (VTrack Scenario.trackA)
              [VTrack Scenario.trackB; VTrack Scenario.trackC])
    as (_ & rest' & Hs & Hp & _).
  - intros l. apply Permutation_rev.
  - vm_compute. reflexivity.
  - vm_compute. reflexivity.
  - vm_compute. reflexivity.
  - exists rest'. rewrite Hs. split; [reflexivity|exact Hp].
Defined.

(** ** Ending a session *)

Lemma find_filter_implied {A} (f h : A -> bool) (l : list A) :
  (forall x, f x = true -> h x = true) ->
  List.find f (List.filter h l) = List.find f l.
Proof.
  intros I. induction l as [|x l IH]; simpl; [reflexivity|].
  destruct (h x) eqn:Eh; simpl.
  - rewrite IH. reflexivity.
  - destruct (f x) eqn:Ef; [rewrite (I _ Ef) in Eh; discriminate|exact IH].
Qed.

(** Dropping the sessions of one key leaves the lookup of another key. *)
Lemma findQueue_dropGuild_ne p g g' :
  g' <> g -> findQueue (dropGuild g p) g' = findQueue p g'.
Proof.
  intros N. unfold findQueue, dropGuild. cbn [queues with_queues].
  rewrite (find_ext_bool (hasGuild (with_queues _ p) g') (hasGuild p g'))
    by reflexivity.
  apply find_filter_implied. intros a. unfold hasGuild.
  destruct (store p !! a) as [q|]; [|discriminate].
  intros E. apply String.eqb_eq in E. rewrite E.
  destruct (String.eqb g' g) eqn:E'; [|reflexivity].
  apply String.eqb_eq in E'. contradiction.
Qed.

Lemma session_None p g : findQueue p g = None -> session p g = None.
Proof. unfold session. intros ->. reflexivity. Qed.

(** X5. Natural end: when the pipeline finishes with nothing pending,
    repeat off and no stop asked, [_playTrack] removes the session, emits
    [end], leaves the voice channel exactly when [leaveOnEnd] is set,
    requests no pipeline and leaves the sessions of other keys. *)
Theorem finish_with_nothing_pending_ends_the_session
    (p : Player) (g : Snowflake) (a : nat) (q : Queue) :
  findQueue p g = Some a ->
  store p !! a = Some q ->
  tracks q = [] ->
  repeatMode q = false ->
  stopped q = false ->
  let p' := _playTrack g false p in
  session p' g = None /\
  emitted p' = emitted p ++ [(a, EvEnd)] /\
  calls p' = calls p ++ (if leaveOnEnd (options p) then [(a, CLeave)] else []) /\
  pipelines p' = pipelines p /\
  store p' = store p /\
  (forall g', g' <> g -> findQueue p' g' = findQueue p g').
Proof.
  intros F S T R St. unfold _playTrack. rewrite F, S, T, R, St.
  change ((length (@nil value) <? 2)%nat && negb false && negb false) with true.
  cbv beta iota zeta. rewrite andb_true_r.
  destruct (leaveOnEnd (options p)).
  - destruct (leave_frame a p) as (Hs & _ & _ & He & Hc & Hp & _).
    split; [apply session_None, (findQueue_dropGuild (leave a p) g)|].
    split; [cbn [emitted emit dropGuild with_queues]; rewrite He; reflexivity|].
    split; [exact Hc|]. split; [exact Hp|]. split; [exact Hs|].
    intros g' N. rewrite <- (findQueue_leave a p g').
    apply (findQueue_dropGuild_ne (leave a p) g g' N).
  - split; [apply session_None, (findQueue_dropGuild p g)|].
    split; [reflexivity|]. split; [symmetry; apply app_nil_r|].
    split; [reflexivity|]. split; [reflexivity|].
    intros g' N. apply (findQueue_dropGuild_ne p g g' N).
Qed.

Lemma finish_with_nothing_pending_ends_the_session_witness :
  let p' := _playTrack "guild-1" false Scenario.started in
  session p' "guild-1" = None /\
  emitted p' = [(0, EvEnd)] /\
  calls p' = calls Scenario.started ++ [(0, CLeave)].
Proof.
  destruct (finish_with_nothing_pending_ends_the_session
              Scenario.started "guild-1" 0
              (default (Queue_new "") (store Scenario.started !! 0)))
    as (Hs & He & Hc & _).
  - reflexivity.
  - reflexivity.
  - reflexivity.
  - reflexivity.
  - reflexivity.
  - split; [exact Hs|]. split; [exact He|exact Hc].
Defined.

Lemma stop_state p g a q d :
  findQueue p g = Some a -> store p !! a = Some q ->
  dispatcher p a = Some d ->
  let p1 := fst (stop g p) in
  snd (stop g p) = Resolved tt /\
  findQueue p1 g = Some a /\
  store p1 !! a = Some (set_tracks [] (set_stopped true q)) /\
  calls p1 = calls p ++ [(a, CEnd)] /\
  emitted p1 = emitted p /\ pipelines p1 = pipelines p /\
  options p1 = options p /\
  (forall g', findQueue p1 g' = findQueue p g').
Proof.
  intros F S D. unfold stop. rewrite F, D. cbn [fst snd].
  set (f := fun q0 => set_tracks [] (set_stopped true q0)).
  destruct (update_frame a f p) as (_ & O & E & C & P & _).
  split; [reflexivity|].
  split.
  { change (findQueue (update a f p) g = Some a).
    rewrite findQueue_update by reflexivity. exact F. }
  split; [apply (update_store_eq a f p q S)|].
  split; [cbn [calls call]; rewrite C; reflexivity|].
  split; [exact E|]. split; [exact P|]. split; [exact O|].
  intros g'. change (findQueue (update a f p) g' = findQueue p g').
  apply findQueue_update. reflexivity.
Qed.

(** X6. [stop] on a session with repeat off whose connection has a
    dispatcher sets the stop flag, empties the queue and ends the
    dispatcher; the finish that follows removes the session and emits
    [stop] (never [end]), leaves the voice channel exactly when
    [leaveOnStop] is set, whatever [leaveOnEnd] says, and requests no
    pipeline. *)
Theorem stop_then_finish_emits_stop
    (p : Player) (g : Snowflake) (a : nat) (q : Queue) (d : nat) :
  findQueue p g = Some a ->
  store p !! a = Some q ->
  dispatcher p a = Some d ->
  repeatMode q = false ->
  let p1 := fst (stop g p) in
  let p2 := _playTrack g false p1 in
  snd (stop g p) = Resolved tt /\
  session p1 g = Some (set_tracks [] (set_stopped true q)) /\
  calls p1 = calls p ++ [(a, CEnd)] /\
  session p2 g = None /\
  emitted p2 = emitted p ++ [(a, EvStop)] /\
  calls p2 = calls p1 ++ (if leaveOnStop (options p) then [(a, CLeave)] else []) /\
  pipelines p2 = pipelines p /\
  (forall g', g' <> g -> findQueue p2 g' = findQueue p g').
Proof.
  intros F S D R.
  destruct (stop_state p g a q d F S D) as (Hr & F1 & S1 & C1 & E1 & P1 & O1 & G1).
  set (p1 := fst (stop g p)) in *. cbv zeta.
  split; [exact Hr|]. split; [unfold session; rewrite F1; exact S1|].
  split; [exact C1|].
  unfold _playTrack. rewrite F1, S1. cbn [tracks repeatMode stopped set_tracks set_stopped].
  rewrite R.
  change ((length (@nil value) <? 2)%nat && negb false && negb false) with true.
  cbv beta iota zeta. rewrite andb_false_r, O1.
  destruct (leaveOnStop (options p)).
  - destruct (leave_frame a (dropGuild g p1)) as (_ & _ & _ & He & Hc & Hp & _).
    split.
    { apply session_None.
      change (findQueue (leave a (dropGuild g p1)) g = None).
      rewrite findQueue_leave. apply findQueue_dropGuild. }
    split; [cbn [emitted emit]; rewrite He; cbn [emitted dropGuild with_queues];
            rewrite E1; reflexivity|].
    split; [cbn [calls emit]; rewrite Hc; reflexivity|].
    split; [cbn [pipelines emit]; rewrite Hp; exact P1|].
    intros g' N. rewrite <- G1.
    change (findQueue (leave a (dropGuild g p1)) g' = findQueue p1 g').
    rewrite findQueue_leave. apply (findQueue_dropGuild_ne p1 g g' N).
  - split; [apply session_None, (findQueue_dropGuild p1 g)|].
    split; [cbn [emitted emit call dropGuild with_queues]; rewrite E1; reflexivity|].
    split; [symmetry; apply app_nil_r|]. split; [exact P1|].
    intros g' N. rewrite <- G1. apply (findQueue_dropGuild_ne p1 g g' N).
Qed.

Lemma stop_then_finish_emits_stop_witness :
  let p2 := _playTrack "guild-1" false (fst (stop "guild-1" Scenario.started)) in
  session p2 "guild-1" = None /\
  emitted p2 = [(0, EvStop)] /\
  calls p2 = calls Scenario.started ++ [(0, CEnd); (0, CLeave)].
Proof.
  destruct (stop_then_finish_emits_stop
              Scenario.started "guild-1" 0
              (default (Queue_new "") (store Scenario.started !! 0)) 0)
    as (_ & _ & C1 & Hs & He & Hc & _).
  - reflexivity.
  - reflexivity.
  - reflexivity.
  - reflexivity.
  - split; [exact Hs|]. split; [exact He|].
    cbv zeta. rewrite Hc, C1, <- app_assoc. reflexivity.
Defined.

(** ** Repeat mode *)

Lemma set_playing_tracks_id q :
  set_tracks (tracks q) (set_playing (playing q) q) = q.
Proof. destruct q. reflexivity. Qed.

(** What [_playTrack] does in repeat mode: the current track stays, the
    queue stays, the flag of the last skip is cleared and a pipeline is
    requested for the same track from the beginning. *)
Lemma _playTrack_repeat p g a q t firstPlay :
  findQueue p g = Some a -> store p !! a = Some q ->
  repeatMode q = true -> playing q = VTrack t ->
  _playTrack g firstPlay p =
    with_pipelines
      (pipelines p ++
         [mkPipeline a (url t) (encoderArgs_of (filters q)) None
            (Some (mkContinuation firstPlay (VTrack t) (VTrack t))) Requested])
      (with_store (<[a := set_lastSkipped false q]> (store p)) p).
Proof.
  intros F S R P. unfold _playTrack. rewrite F, S, R. rewrite andb_false_r.
  match goal with
  | |- _playYTDLStream _ _ _ _ (update a ?f p) = _ =>
      pose proof (update_store_eq a f p q S) as S1;
      rewrite (_playYTDLStream_request _ _ _ _ _ S1);
      unfold update; rewrite S
  end.
  cbn [playing set_lastSkipped set_tracks set_playing filters].
  rewrite P. cbn [pipelines with_store].
  rewrite <- P, set_playing_tracks_id. reflexivity.
Qed.

(** X7. [stop] does not end a session in repeat mode: when the
    connection has a dispatcher to end, the finish that follows [stop]
    finds the queue emptied but replays the current track, the session
    stays registered and no [stop] or [end] is emitted. *)
Theorem stop_in_repeat_mode_replays_the_track
    (p : Player) (g : Snowflake) (a : nat) (q : Queue) (d : nat) (t : Track) :
  findQueue p g = Some a ->
  store p !! a = Some q ->
  dispatcher p a = Some d ->
  repeatMode q = true ->
  playing q = VTrack t ->
  let p2 := _playTrack g false (fst (stop g p)) in
  isPlaying g p2 = true /\
  session p2 g = Some (set_lastSkipped false (set_tracks [] (set_stopped true q))) /\
  emitted p2 = emitted p /\
  calls p2 = calls p ++ [(a, CEnd)] /\
  pipelines p2 = pipelines p ++ [repeat_pipeline a q t].
Proof.
  intros F S D R P.
  destruct (stop_state p g a q d F S D) as (_ & F1 & S1 & C1 & E1 & P1 & _ & _).
  set (p1 := fst (stop g p)) in *. cbv zeta.
  rewrite (_playTrack_repeat p1 g a _ t false F1 S1 R P).
  set (p2 := with_pipelines _ _).
  assert (S2 : store p2 !! a
               = Some (set_lastSkipped false (set_tracks [] (set_stopped true q)))).
  { unfold p2. cbn [store with_pipelines with_store].
    apply list_lookup_insert_eq. eapply lookup_lt_Some, S1. }
  assert (F2 : findQueue p2 g = Some a).
  { unfold findQueue. change (queues p2) with (queues p1).
    rewrite (find_ext_bool (hasGuild p2 g) (hasGuild p1 g)); [exact F1|].
    intros b. unfold hasGuild. destruct (decide (b = a)) as [->|N].
    - rewrite S2, S1. reflexivity.
    - unfold p2. cbn [store with_pipelines with_store].
      rewrite list_lookup_insert_ne by congruence. reflexivity. }
  split.
  { destruct (isPlaying g p2) eqn:I; [reflexivity|].
    apply isPlaying_findQueue in I. congruence. }
  split; [unfold session; rewrite F2; exact S2|].
  split; [exact E1|]. split; [exact C1|].
  unfold p2. cbn [pipelines with_pipelines with_store]. rewrite P1. reflexivity.
Qed.

Lemma stop_in_repeat_mode_replays_the_track_witness :
  let p := fst (setRepeatMode "guild-1" true Scenario.started) in
  let p2 := _playTrack "guild-1" false (fst (stop "guild-1" p)) in
  isPlaying "guild-1" p2 = true /\
  emitted p2 = [] /\
  pl_url <$> pipelines p2 = ["https://youtube.test/a"; "https://youtube.test/a"].
Proof.
  intros p.
  destruct (stop_in_repeat_mode_replays_the_track
              p "guild-1" 0 (default (Queue_new "") (store p !! 0)) 0 Scenario.A)
    as (Hi & _ & He & _ & Hp).
  - vm_compute. reflexivity.
  - vm_compute. reflexivity.
  - vm_compute. reflexivity.
  - vm_compute. reflexivity.
  - vm_compute. reflexivity.
  - split; [exact Hi|]. split; [exact He|].
    cbv zeta. rewrite Hp. reflexivity.
Defined.

(** The state after [n] finishes in repeat mode. *)
Lemma repeat_invariant p g a q t n :
  findQueue p g = Some a -> store p !! a = Some q ->
  repeatMode q = true -> playing q = VTrack t ->
  let pn := Nat.iter n (_playTrack g false) p in
  findQueue pn g = Some a /\
  (exists qn, store pn !! a = Some qn /\ playing qn = VTrack t /\
              tracks qn = tracks q /\ repeatMode qn = true /\
              filters qn = filters q) /\
  pipelines pn = pipelines p ++ replicate n (repeat_pipeline a q t) /\
  emitted pn = emitted p /\ calls pn = calls p /\ queues pn = queues p.
Proof.
  intros F S R P. cbv zeta. induction n as [|n IH]; cbn [Nat.iter].
  - split; [exact F|]. split; [exists q; repeat split; assumption|].
    cbn [replicate]. rewrite app_nil_r. repeat split.
  - destruct IH as (Fn & (qn & Sn & Pn & Tn & Rn & Fln) & Hp & He & Hc & Hq).
    set (pn := Nat.iter n (_playTrack g false) p) in *.
    change (Nat.iter (Datatypes.S n) (_playTrack g false) p)
      with (_playTrack g false pn).
    rewrite (_playTrack_repeat pn g a qn t false Fn Sn Rn Pn).
    set (p' := with_pipelines _ _).
    assert (S' : store p' !! a = Some (set_lastSkipped false qn)).
    { unfold p'. cbn [store with_pipelines with_store].
      apply list_lookup_insert_eq. eapply lookup_lt_Some, Sn. }
    split.
    { unfold findQueue. change (queues p') with (queues pn).
      rewrite (find_ext_bool (hasGuild p' g) (hasGuild pn g)); [exact Fn|].
      intros b. unfold hasGuild. destruct (decide (b = a)) as [->|N].
      - rewrite S', Sn. reflexivity.
      - unfold p'. cbn [store with_pipelines with_store].
        rewrite list_lookup_insert_ne by congruence. reflexivity. }
    split.
    { exists (set_lastSkipped false qn). repeat split; assumption. }
    split.
    { unfold p'. cbn [pipelines with_pipelines with_store]. rewrite Hp, Fln.
      rewrite <- app_assoc. f_equal.
      change (replicate n (repeat_pipeline a q t) ++ [repeat_pipeline a q t]
              = replicate (Datatypes.S n) (repeat_pipeline a q t)).
      clear. induction n as [|n IH]; cbn [replicate app]; [reflexivity|].
      rewrite IH. reflexivity. }
    repeat split; assumption.
Qed.

(** X8. In repeat mode every finish replays the current track: after any
    number of finishes the session is still registered with the same
    current track and the same pending sequence, one pipeline per finish
    was requested for that track from its beginning, and neither [end]
    nor [stop] nor any other event was emitted by the finishes. *)
Theorem repeat_mode_replays_the_current_track
    (p : Player) (g : Snowflake) (a : nat) (q : Queue) (t : Track) (n : nat) :
  findQueue p g = Some a ->
  store p !! a = Some q ->
  repeatMode q = true ->
  playing q = VTrack t ->
  let pn := Nat.iter n (_playTrack g false) p in
  isPlaying g pn = true /\
  (exists qn, session pn g = Some qn /\ playing qn = VTrack t /\
              tracks qn = tracks q /\ repeatMode qn = true) /\
  pipelines pn = pipelines p ++ replicate n (repeat_pipeline a q t) /\
  emitted pn = emitted p /\ calls pn = calls p /\ queues pn = queues p.
Proof.
  intros F S R P.
  destruct (repeat_invariant p g a q t n F S R P)
    as (Fn & (qn & Sn & Pn & Tn & Rn & _) & Hp & He & Hc & Hq).
  cbv zeta. split.
  { destruct (isPlaying g _) eqn:I; [reflexivity|].
    apply isPlaying_findQueue in I. congruence. }
  split.
  { exists qn. unfold session. rewrite Fn. repeat split; assumption. }
  repeat split; assumption.
Qed.

Lemma repeat_mode_replays_the_current_track_witness :
  let p := Scenario.exec
             [DoSetQueue "guild-1" [VTrack Scenario.trackB];
              DoSetRepeatMode "guild-1" true] Scenario.started in
  let p3 := Nat.iter 3 (_playTrack "guild-1" false) p in
  isPlaying "guild-1" p3 = true /\
  emitted p3 = [] /\
  length (pipelines p3) = 4.
Proof.
  intros p.
  destruct (repeat_mode_replays_the_current_track
              p "guild-1" 0 (default (Queue_new "") (store p !! 0)) Scenario.A 3)
    as (Hi & _ & Hp & He & _).
  - vm_compute. reflexivity.
  - vm_compute. reflexivity.
  - vm_compute. reflexivity.
  - vm_compute. reflexivity.
  - split; [exact Hi|]. split; [exact He|].
    cbv zeta. rewrite Hp. reflexivity.
Defined.

(** ** The voice channel empties *)

Lemma findByChannel_handle p ch membersSize :
  leaveOnEmpty (options p) = true ->
  _handleVoiceStateUpdate (Some ch) None membersSize p =
    match findByChannel p ch with
    | Some a =>
        if (1 <? membersSize)%nat then p else
        emit a EvChannelEmpty
          (dropGuild (default "" (guildID <$> store p !! a)) (leave a p))
    | None => p
    end.
Proof. intros L. unfold _handleVoiceStateUpdate. rewrite L. reflexivity. Qed.

(** X9. [_handleVoiceStateUpdate] does nothing when [leaveOnEmpty] is
    off, when the member was in no channel before, when the member is in a
    channel afterwards (a join or a move), when no session is bound to the
    channel left, or when more than one member remains in it. *)
Theorem voice_state_update_is_ignored
    (p : Player) (oldChannel newChannel : option Snowflake) (membersSize : nat) :
  leaveOnEmpty (options p) = false \/
  oldChannel = None \/
  newChannel <> None \/
  (exists ch, oldChannel = Some ch /\ findByChannel p ch = None) \/
  1 < membersSize ->
  _handleVoiceStateUpdate oldChannel newChannel membersSize p = p.
Proof.
  intros H. destruct (leaveOnEmpty (options p)) eqn:L.
  - destruct oldChannel as [ch|], newChannel as [ch'|];
      try (unfold _handleVoiceStateUpdate; rewrite L; reflexivity).
    rewrite (findByChannel_handle p ch membersSize L).
    destruct H as [H|[H|[H|[(ch0 & E & H)|H]]]]; try congruence.
    + injection E as <-. rewrite H. reflexivity.
    + destruct (findByChannel p ch); [|reflexivity].
      apply Nat.ltb_lt in H. rewrite H. reflexivity.
  - unfold _handleVoiceStateUpdate. rewrite L. reflexivity.
Qed.

Lemma voice_state_update_is_ignored_witness :
  _handleVoiceStateUpdate (Some "channel-7") None 2 Scenario.started
    = Scenario.started /\
  _handleVoiceStateUpdate (Some "channel-7") (Some "channel-8") 1 Scenario.started
    = Scenario.started.
Proof.
  split.
  - apply voice_state_update_is_ignored. right. right. right. right. lia.
  - apply voice_state_update_is_ignored. right. right. left. discriminate.
Defined.

(** X10. When a member leaves the channel a session is bound to and at
    most one member remains, with [leaveOnEmpty] on, the Player leaves the
    channel, removes every session of that guild and emits
    [channelEmpty]; it sends nothing else to the dispatcher, requests no
    pipeline and leaves the sessions of other guilds. *)
Theorem last_member_leaving_ends_the_session
    (p : Player) (ch : Snowflake) (a : nat) (q : Queue) (membersSize : nat) :
  leaveOnEmpty (options p) = true ->
  findByChannel p ch = Some a ->
  store p !! a = Some q ->
  membersSize <= 1 ->
  let p' := _handleVoiceStateUpdate (Some ch) None membersSize p in
  calls p' = calls p ++ [(a, CLeave)] /\
  emitted p' = emitted p ++ [(a, EvChannelEmpty)] /\
  session p' (guildID q) = None /\
  isPlaying (guildID q) p' = false /\
  (forall g', g' <> guildID q -> findQueue p' g' = findQueue p g') /\
  store p' = store p /\
  pipelines p' = pipelines p.
Proof.
  intros L F S M. cbv zeta.
  rewrite (findByChannel_handle p ch membersSize L), F, S.
  assert (E : (1 <? membersSize)%nat = false) by (apply Nat.ltb_ge; lia).
  rewrite E. cbn [fmap option_fmap option_map default].
  assert (N : findQueue (emit a EvChannelEmpty
                           (dropGuild (guildID q) (leave a p))) (guildID q)
              = None)
    by apply (findQueue_dropGuild (leave a p) (guildID q)).
  destruct (leave_frame a p) as (Hs & _ & _ & He & Hc & Hp & _).
  split; [exact Hc|].
  split; [cbn [emitted emit dropGuild with_queues]; rewrite He; reflexivity|].
  split; [apply session_None, N|].
  split; [apply isPlaying_findQueue, N|].
  split; [|split; [exact Hs|exact Hp]].
  intros g' Ng. rewrite <- (findQueue_leave a p g').
  apply (findQueue_dropGuild_ne (leave a p) (guildID q) g' Ng).
Qed.

Lemma last_member_leaving_ends_the_session_witness :
  let p' := _handleVoiceStateUpdate (Some "channel-7") None 1 Scenario.started in
  isPlaying "guild-1" p' = false /\
  calls p' = calls Scenario.started ++ [(0, CLeave)] /\
  emitted p' = [(0, EvChannelEmpty)].
Proof.
  destruct (last_member_leaving_ends_the_session
              Scenario.started "channel-7" 0
              (default (Queue_new "") (store Scenario.started !! 0)) 1)
    as (Hc & He & _ & Hi & _).
  - reflexivity.
  - reflexivity.
  - reflexivity.
  - lia.
  - split; [exact Hi|]. split; [exact Hc|exact He].
Defined.

(** X11. A [finish] signal of a pipeline whose session is no longer
    registered changes nothing but the record of that pipeline: no event,
    no call, no new pipeline, and the registry stays as it is. *)
Theorem finish_after_removal_changes_nothing
    (p : Player) (i : nat) (pl : Pipeline) (q : Queue) :
  pipelines p !! i = Some pl ->
  store p !! pl_queue pl = Some q ->
  isPlaying (guildID q) p = false ->
  let p' := dispatcher_finish i p in
  store p' = store p /\ queues p' = queues p /\
  emitted p' = emitted p /\ calls p' = calls p /\
  length (pipelines p') = length (pipelines p).
Proof.
  intros L S I. apply isPlaying_findQueue in I. cbv zeta.
  unfold dispatcher_finish. rewrite L, S.
  set (p0 := dispatcher_gone i (pl_queue pl) p).
  destruct (dispatcher_gone_frame i (pl_queue pl) p)
    as (Hs & Hq & _ & He & Hc & Hp & _). fold p0 in Hs, Hq, He, Hc, Hp.
  assert (K : forall l,
             _playTrack (guildID q) false (with_pipelines l p0) = with_pipelines l p0).
  { intros l. unfold _playTrack.
    rewrite (findQueue_same p (with_pipelines l p0) (guildID q) Hs Hq), I.
    reflexivity. }
  destruct (pl_stage pl); try (repeat split; reflexivity);
    cbv zeta; rewrite K; cbn [store queues emitted calls pipelines with_pipelines];
    rewrite Hs, Hq, He, Hc, Hp; repeat split; apply length_insert.
Qed.

Lemma finish_after_removal_changes_nothing_witness :
  let p := _handleVoiceStateUpdate (Some "channel-7") None 1 Scenario.started in
  emitted (dispatcher_finish 0 p) = emitted p /\
  queues (dispatcher_finish 0 p) = queues p.
Proof.
  intros p.
  destruct (finish_after_removal_changes_nothing p 0
              (default (mkPipeline 0 "" [] None None Requested) (pipelines p !! 0))
              (default (Queue_new "") (store p !! 0)))
    as (_ & Hq & He & _).
  - vm_compute. reflexivity.
  - vm_compute. reflexivity.
  - vm_compute. reflexivity.
  - split; [exact He|exact Hq].
Defined.

(** ** Searching *)

Lemma imap_Track_new_lookup (o : nat) (l : list VideoItem) (i : nat) :
  imap (fun n r => Track_new (o + n) r) l !! i = Track_new (o + i) <$> l !! i.
Proof. exact (list_lookup_imap (fun n r => Track_new (o + n) r) l i). Qed.

(** X12. [searchTracks] searches for the video id when the query is a
    YouTube URL and for the query itself otherwise. It resolves with one
    new Track per item of type video, in the order of the provider, each
    with the url of its item and no requester, all of them distinct
    objects; items of other types are dropped. When the provider reports
    an error the promise is never settled. Sessions are not touched. *)
Theorem searchTracks_returns_the_videos
    (videoId : string -> option string)
    (ytsr : string -> option (list VideoItem))
    (query : string) (p : Player) :
  let out := searchTracks videoId ytsr query p in
  store (fst out) = store p /\ queues (fst out) = queues p /\
  pipelines (fst out) = pipelines p /\ emitted (fst out) = emitted p /\
  match ytsr (default query (videoId query)) with
  | None => out = (p, Pending)
  | Some items =>
      exists ts,
        snd out = Resolved ts /\
        url <$> ts
          = item_link <$> List.filter (fun i => String.eqb (item_type i) "video") items /\
        Forall (fun t => requestedBy t = None) ts /\
        NoDup (oid <$> ts) /\
        Forall (fun t => nextOid p <= oid t < nextOid (fst out)) ts
  end.
Proof.
  cbv zeta. unfold searchTracks.
  destruct (ytsr (default query (videoId query))) as [items|];
    [|repeat split].
  cbn [fst snd store queues pipelines emitted nextOid with_nextOid].
  do 4 (split; [reflexivity|]).
  set (vs := List.filter _ items). set (o := nextOid p).
  exists (imap (fun n r => Track_new (o + n) r) vs).
  split; [reflexivity|]. split.
  { apply list_eq. intros i.
    rewrite !list_lookup_fmap, imap_Track_new_lookup.
    destruct (vs !! i); reflexivity. }
  split.
  { apply Forall_lookup. intros i t H. rewrite imap_Track_new_lookup in H.
    destruct (vs !! i); [|discriminate]. injection H as <-. reflexivity. }
  split.
  { replace (oid <$> imap (fun n r => Track_new (o + n) r) vs)
      with (seq o (length vs)); [apply NoDup_seq|].
    apply list_eq. intros i.
    rewrite list_lookup_fmap, imap_Track_new_lookup.
    destruct (vs !! i) as [r|] eqn:E; simpl.
    - apply lookup_seq_lt. eapply lookup_lt_Some, E.
    - apply lookup_seq_ge. apply lookup_ge_None, E. }
  apply Forall_lookup. intros i t H. rewrite imap_Track_new_lookup in H.
  destruct (vs !! i) as [r|] eqn:E; [|discriminate]. injection H as <-.
  apply lookup_lt_Some in E. simpl. lia.
Qed.

(** ** The first play of a session *)

Lemma find_app_last {A} (f : A -> bool) (l : list A) (y : A) :
  (forall x, In x l -> f x = false) -> f y = true ->
  List.find f (l ++ [y]) = Some y.
Proof.
  intros H Hy. induction l as [|x l IH]; simpl.
  - rewrite Hy. reflexivity.
  - rewrite (H x) by (left; reflexivity).
    apply IH. intros z Hz. apply H. right. exact Hz.
Qed.

Lemma play_queue_fields vc c t :
  guildID (play_queue vc c t) = vc_guild_id vc /\
  voiceConnection (play_queue vc c t) = c /\
  tracks (play_queue vc c t) = [VTrack t] /\
  repeatMode (play_queue vc c t) = false /\
  fst <$> filters (play_queue vc c t) = fst <$> filters_table /\
  Forall (fun kv => kv.2 = false) (filters (play_queue vc c t)) /\
  encoderArgs_of (filters (play_queue vc c t)) = [].
Proof.
  assert (F : filters (play_queue vc c t)
              = (fun kv => (kv.1, false)) <$> filters_table)
    by (vm_compute; reflexivity).
  do 4 (split; [reflexivity|]). rewrite F.
  split; [vm_compute; reflexivity|]. split; [|vm_compute; reflexivity].
  repeat constructor.
Qed.

Lemma filter_none_bool {A} (f : A -> bool) (l : list A) :
  (forall x, In x l -> f x = false) -> List.filter f l = [].
Proof.
  induction l as [|x l IH]; intros H; [reflexivity|].
  cbn [List.filter]. rewrite H by (left; reflexivity).
  apply IH. intros y Hy. apply H. right. exact Hy.
Qed.

(** The part of [play] that registers the queue and starts it, on a
    Player that has no session for the guild of the channel. *)
Lemma play_registers p1 vc t :
  registry_wf p1 ->
  findQueue p1 (vc_guild_id vc) = None ->
  let queue := play_queue vc (vc_id vc) t in
  let a := length (store p1) in
  let p2 := with_queues (queues p1 ++ [a]) (with_store (store p1 ++ [queue]) p1) in
  let p' := _playTrack (vc_guild_id vc) true p2 in
  findQueue p' (vc_guild_id vc) = Some a /\
  store p' !! a
    = Some (set_lastSkipped false (set_tracks [] (set_playing (VTrack t) queue))) /\
  pipelines p' =
    pipelines p1 ++
      [mkPipeline a (url t) [] None
         (Some (mkContinuation true (VTrack t) (playing queue))) Requested] /\
  emitted p' = emitted p1 /\ calls p' = calls p1 /\
  queues p' = queues p1 ++ [a] /\
  (forall b, b < a -> store p' !! b = store p1 !! b) /\
  emitted (dispatcher_start (length (pipelines p1))
             (timer_fires (length (pipelines p1)) p'))
    = emitted p1.
Proof.
  intros WF N queue a p2.
  destruct (play_queue_fields vc (vc_id vc) t) as (G & _ & T & R & _ & _ & EA).
  fold queue in G, T, R, EA.
  assert (S2 : store p2 !! a = Some queue).
  { unfold p2. cbn [store with_queues with_store].
    apply list_lookup_middle. reflexivity. }
  assert (F2 : findQueue p2 (vc_guild_id vc) = Some a).
  { unfold findQueue, p2. cbn [queues with_queues]. apply find_app_last.
    - intros x Hx.
      pose proof (find_none _ _ N x Hx) as Hn.
      unfold hasGuild in *. cbn [store with_queues with_store].
      rewrite lookup_app_l by (apply WF, Hx). exact Hn.
    - fold p2. unfold hasGuild. rewrite S2, G. apply String.eqb_refl. }
  cbv zeta.
  rewrite (_playTrack_advance p2 _ a queue t [] true F2 S2 R T (or_introl eq_refl)).
  set (f := fun q0 => set_lastSkipped false (set_tracks [] (set_playing (VTrack t) q0))).
  set (p3 := update a f p2).
  assert (S3 : store p3 !! a = Some (f queue)) by (apply update_store_eq, S2).
  destruct (update_frame a f p2) as (Q3 & _ & E3 & C3 & P3 & _).
  fold p3 in Q3, E3, C3, P3. rewrite EA.
  split.
  { change (findQueue p3 (vc_guild_id vc) = Some a).
    unfold p3. rewrite findQueue_update by reflexivity. exact F2. }
  split; [exact S3|]. split; [reflexivity|].
  split; [exact E3|]. split; [exact C3|]. split; [exact Q3|].
  split.
  { intros b Hb. change (store p3 !! b = store p1 !! b).
    unfold p3. rewrite update_store_ne by lia.
    unfold p2. cbn [store with_queues with_store].
    apply lookup_app_l. exact Hb. }
  change (pipelines p1) with (pipelines p2). rewrite <- P3.
  match goal with
  | |- context [with_pipelines (_ ++ [?pl]) p3] =>
      rewrite (requested_pipeline_start p3 pl _ S3 eq_refl)
  end.
  cbn [pl_then k_firstPlay negb]. exact E3.
Qed.

(** X13. [play] with a Track, on a guild that has no session, resolves
    with the track attributed to the user and registers one session for
    the guild of the channel, bound to the channel, with that track as the
    current track, nothing pending and every filter of the table off. It
    requests one pipeline for the url of the track, without filter
    arguments and from the beginning; nothing is emitted, and nothing is
    emitted either when that first pipeline starts. *)
Theorem play_starts_a_session_on_a_free_guild
    (videoId : string -> option string)
    (ytsr : string -> option (list VideoItem))
    (p : Player) (vc : VoiceChannel) (t : Track) (user : option User) :
  registry_wf p ->
  isPlaying (vc_guild_id vc) p = false ->
  let out := play videoId ytsr vc (ArgTrack t) user p in
  let a := length (store p) in
  let n := length (pipelines p) in
  snd out = Resolved (attribute user t) /\
  registered (fst out) (vc_guild_id vc) = 1 /\
  (exists q,
      session (fst out) (vc_guild_id vc) = Some q /\
      guildID q = vc_guild_id vc /\
      voiceConnection q = vc_id vc /\
      playing q = VTrack (attribute user t) /\
      tracks q = [] /\
      fst <$> filters q = fst <$> filters_table /\
      Forall (fun kv => kv.2 = false) (filters q)) /\
  (exists k,
      pipelines (fst out) =
        pipelines p ++ [mkPipeline a (url t) [] None (Some k) Requested] /\
      k_firstPlay k = true /\ k_nowPlaying k = VTrack (attribute user t)) /\
  emitted (fst out) = emitted p /\
  calls (fst out) = calls p /\
  emitted (dispatcher_start n (timer_fires n (fst out))) = emitted p.
Proof.
  intros WF I. apply isPlaying_findQueue in I.
  set (g := vc_guild_id vc) in *.
  set (p0 := dropGuild (vc_id vc) p).
  assert (WF0 : registry_wf p0).
  { intros x Hx. apply WF. unfold p0, dropGuild in Hx. cbn in Hx.
    apply List.filter_In in Hx. tauto. }
  assert (N0 : findQueue p0 g = None).
  { destruct (findQueue p0 g) as [x|] eqn:E; [|reflexivity].
    unfold findQueue in E. apply find_some in E as [E1 E2].
    unfold p0, dropGuild in E1. cbn in E1. apply List.filter_In in E1 as [E1 _].
    change (hasGuild p0 g x) with (hasGuild p g x) in E2.
    rewrite (find_none _ _ I x E1) in E2. discriminate. }
  pose proof (play_registers p0 vc (attribute user t) WF0 N0) as H.
  cbv zeta in H.
  set (p' := _playTrack (vc_guild_id vc) true _) in H.
  destruct H as (F' & S' & P' & E' & C' & Q' & B' & St').
  destruct (play_queue_fields vc (vc_id vc) (attribute user t))
    as (G & V & _ & _ & K1 & K2 & _).
  assert (Eout : play videoId ytsr vc (ArgTrack t) user p
                 = (p', Resolved (attribute user t))) by reflexivity.
  cbv zeta. rewrite Eout. cbn [fst snd].
  split; [reflexivity|]. split.
  { unfold registered. rewrite Q', List.filter_app, length_app.
    assert (Z : List.filter (hasGuild p' g) (queues p0) = []).
    { assert (H : forall x, In x (queues p0) -> hasGuild p' g x = false).
      { intros x Hx. unfold hasGuild. rewrite B' by (apply WF0, Hx).
        apply (find_none _ _ N0 x Hx). }
      apply filter_none_bool, H. }
    rewrite Z. cbn [List.filter]. pose proof F' as F''.
    apply find_some in F'' as [_ F''].
    change (hasGuild p' g (length (store p0)) = true) in F''.
    rewrite F''. reflexivity. }
  split.
  { eexists. split.
    { unfold session. change (findQueue p' g) with (findQueue p' (vc_guild_id vc)).
      rewrite F'. exact S'. }
    cbn [guildID voiceConnection playing tracks filters set_lastSkipped
           set_tracks set_playing].
    repeat split; assumption. }
  split.
  { eexists. split; [exact P'|]. split; reflexivity. }
  split; [exact E'|]. split; [exact C'|]. exact St'.
Qed.

Lemma play_starts_a_session_on_a_free_guild_witness :
  let out := play Scenario.noVideoId Scenario.catalogue Scenario.lounge
               (ArgTrack Scenario.trackA) Scenario.alice
               (Player_new defaultPlayerOptions) in
  snd out = Resolved Scenario.A /\
  registered (fst out) "guild-1" = 1 /\
  emitted (dispatcher_start 0 (timer_fires 0 (fst out))) = [].
Proof.
  destruct (play_starts_a_session_on_a_free_guild
              Scenario.noVideoId Scenario.catalogue
              (Player_new defaultPlayerOptions) Scenario.lounge
              Scenario.trackA Scenario.alice)
    as (Hr & Hg & _ & _ & _ & _ & Hs).
  - intros a [].
  - reflexivity.
  - split; [exact Hr|]. split; [exact Hg|exact Hs].
Defined.

Lemma dropGuild_free p g g' :
  registry_wf p -> findQueue p g = None ->
  registry_wf (dropGuild g' p) /\ findQueue (dropGuild g' p) g = None.
Proof.
  intros WF N. split.
  - intros x Hx. apply WF. unfold dropGuild in Hx. cbn in Hx.
    apply List.filter_In in Hx. tauto.
  - destruct (findQueue (dropGuild g' p) g) as [x|] eqn:E; [|reflexivity].
    unfold findQueue in E. apply find_some in E as [E1 E2].
    unfold dropGuild in E1. cbn in E1. apply List.filter_In in E1 as [E1 _].
    change (hasGuild (dropGuild g' p) g x) with (hasGuild p g x) in E2.
    rewrite (find_none _ _ N x E1) in E2. discriminate.
Qed.

(** X14. [play] with a query, on a guild that has no session, plays the
    first video the search returns: it resolves with a Track that has the
    url of that item and the user as requester, makes it the current
    track of the one session registered for the guild and requests one
    pipeline for that url. *)
Theorem play_by_query_plays_the_first_video
    (videoId : string -> option string)
    (ytsr : string -> option (list VideoItem))
    (p : Player) (vc : VoiceChannel) (query : string) (user : option User)
    (items : list VideoItem) (r : VideoItem) (others : list VideoItem) :
  ytsr (default query (videoId query)) = Some items ->
  List.filter (fun i => String.eqb (item_type i) "video") items = r :: others ->
  registry_wf p ->
  isPlaying (vc_guild_id vc) p = false ->
  let out := play videoId ytsr vc (ArgQuery query) user p in
  exists t,
    snd out = Resolved t /\
    url t = item_link r /\ requestedBy t = user /\
    findQueue (fst out) (vc_guild_id vc) = Some (length (store p)) /\
    playing <$> session (fst out) (vc_guild_id vc) = Some (VTrack t) /\
    tracks <$> session (fst out) (vc_guild_id vc) = Some [] /\
    (pl_url <$> pipelines (fst out)) = (pl_url <$> pipelines p) ++ [item_link r] /\
    emitted (fst out) = emitted p.
Proof.
  intros Y V WF I. apply isPlaying_findQueue in I.
  destruct (dropGuild_free p (vc_guild_id vc) (vc_id vc) WF I) as (WF0 & N0).
  set (p0 := dropGuild (vc_id vc) p) in *.
  set (p1 := with_nextOid (nextOid p0 + length (r :: others)) p0).
  set (t := attribute user (Track_new (nextOid p0 + 0) r)).
  pose proof (play_registers p1 vc t WF0 N0) as H. cbv zeta in H.
  set (p' := _playTrack (vc_guild_id vc) true _) in H.
  destruct H as (F' & S' & P' & E' & _).
  assert (Eout : play videoId ytsr vc (ArgQuery query) user p = (p', Resolved t)).
  { unfold play, searchTracks. fold p0. rewrite Y, V. reflexivity. }
  cbv zeta. rewrite Eout. cbn [fst snd]. exists t.
  split; [reflexivity|]. split; [reflexivity|]. split; [reflexivity|].
  split; [exact F'|].
  unfold session. rewrite F'. cbn [mbind option_bind].
  change (length (store p)) with (length (store p1)). rewrite S'.
  split; [reflexivity|]. split; [reflexivity|].
  split; [|exact E'].
  rewrite P', fmap_app. reflexivity.
Qed.

Lemma play_by_query_plays_the_first_video_witness :
  let out := play Scenario.noVideoId Scenario.catalogue Scenario.lounge
               (ArgQuery "never gonna") Scenario.alice
               (Player_new defaultPlayerOptions) in
  exists t,
    snd out = Resolved t /\
    url t = "https://youtube.test/watch?v=dQw4w9WgXcQ" /\
    requestedBy t = Some "alice" /\
    pl_url <$> pipelines (fst out) = ["https://youtube.test/watch?v=dQw4w9WgXcQ"].
Proof.
  destruct (play_by_query_plays_the_first_video
              Scenario.noVideoId Scenario.catalogue
              (Player_new defaultPlayerOptions) Scenario.lounge
              "never gonna" Scenario.alice
              [mkItem "channel" "https://youtube.test/c/rick";
               mkItem "video" "https://youtube.test/watch?v=dQw4w9WgXcQ";
               mkItem "video" "https://youtube.test/watch?v=other"]
              (mkItem "video" "https://youtube.test/watch?v=dQw4w9WgXcQ")
              [mkItem "video" "https://youtube.test/watch?v=other"])
    as (t & Hr & Hu & Hq & _ & _ & _ & Hp & _).
  - reflexivity.
  - reflexivity.
  - intros a [].
  - reflexivity.
  - exists t. split; [exact Hr|]. split; [exact Hu|]. split; [exact Hq|exact Hp].
Defined.



(** ** Filter chains *)

Lemma encoderArgsFilters_nil fs :
  encoderArgsFilters fs = [] <-> Forall (fun kv => kv.2 = false) fs.
Proof.
  unfold encoderArgsFilters. induction fs as [|[k b] fs IH]; simpl.
  - split; [constructor|reflexivity].
  - destruct b; simpl.
    + split; [discriminate|]. intros H. apply Forall_cons in H as [H _].
      discriminate H.
    + rewrite IH. split.
      * intros H. constructor; [reflexivity|exact H].
      * intros H. apply Forall_cons in H as [_ H]. exact H.
Qed.

(** X16. The encoder arguments of a stream are empty exactly when no
    filter of the session is on; otherwise they are "-af" followed by one
    chain. With a single filter on, the chain is what the lookup of its
    name on the table gives: the entry of the table, else the text of the
    member that the table inherits from [Object.prototype] under that
    name (the native function for "toString"), else the empty string. *)
Theorem encoderArgs_follow_the_enabled_filters (fs : list (string * bool)) :
  (encoderArgs_of fs = [] <-> Forall (fun kv => kv.2 = false) fs) /\
  (encoderArgs_of fs = [] \/ exists chain, encoderArgs_of fs = ["-af"; chain]) /\
  (forall name,
      List.filter snd fs = [(name, true)] ->
      encoderArgs_of fs = ["-af"; default "" (filters_lookup name)]) /\
  (forall name chain,
      obj_get name filters_table = Some chain -> filters_lookup name = Some chain) /\
  (forall name,
      obj_get name filters_table = None ->
      filters_lookup name = obj_get name Object_prototype) /\
  filters_lookup "toString" = Some "function toString() { [native code] }" /\
  filters_lookup "echo" = None.
Proof.
  unfold encoderArgs_of. split; [|split; [|split; [|split; [|split]]]].
  - rewrite <- encoderArgsFilters_nil.
    destruct (encoderArgsFilters fs); simpl; split; congruence.
  - destruct (encoderArgsFilters fs); simpl; [left; reflexivity|].
    right. eexists. reflexivity.
  - intros name H. unfold encoderArgsFilters. rewrite H.
    cbn [fmap list_fmap length Nat.ltb Nat.leb fst]. unfold js_join.
    cbn [fmap list_fmap String.concat]. reflexivity.
  - intros name chain H. unfold filters_lookup. rewrite H. reflexivity.
  - intros name H. unfold filters_lookup. rewrite H. reflexivity.
  - vm_compute. repeat split.
Qed.

(** *** The names of the filter set *)

Lemma obj_get_None_not_In {A} (k : string) (o : list (string * A)) :
  obj_get k o = None -> ~ In k (fst <$> o).
Proof.
  induction o as [|[k0 v0] o IH]; simpl; [tauto|].
  destruct (String.eqb k k0) eqn:E; [discriminate|].
  intros H [Heq|Hin]; [|exact (IH H Hin)].
  subst k0. rewrite String.eqb_refl in E. discriminate.
Qed.

Lemma obj_get_In_keys {A} (k : string) (o : list (string * A)) :
  In k (fst <$> o) -> exists v, obj_get k o = Some v.
Proof.
  intros H. destruct (obj_get k o) as [v|] eqn:G; [eauto|].
  exfalso. exact (obj_get_None_not_In k o G H).
Qed.

Lemma obj_replace_keys {A} (k : string) (v : A) (o : list (string * A)) :
  fst <$> obj_replace k v o = fst <$> o.
Proof.
  induction o as [|[k0 v0] o IH]; cbn [obj_replace]; [reflexivity|].
  destruct (String.eqb k k0) eqn:E.
  - apply String.eqb_eq in E. subst k0. reflexivity.
  - rewrite !fmap_cons, IH. reflexivity.
Qed.

Lemma obj_insert_keys {A} (n : N) (k : string) (v : A) (o : list (string * A)) :
  exists l1 l2, fst <$> o = l1 ++ l2 /\ fst <$> obj_insert n k v o = l1 ++ k :: l2.
Proof.
  induction o as [|[k0 v0] o IH]; cbn [obj_insert].
  - exists [], []. split; reflexivity.
  - destruct (array_index k0) as [m|];
      [destruct (m <? n)%N|]; try (exists [], (k0 :: (fst <$> o)); split; reflexivity).
    destruct IH as (l1 & l2 & H1 & H2). exists (k0 :: l1), l2.
    rewrite !fmap_cons, H1, H2. split; reflexivity.
Qed.

(** What an assignment does to the names of an object: none is lost, at
    most the name assigned is new, an existing name (and [__proto__])
    changes nothing, and a new name that is no array index goes last. *)
Lemma obj_set_keys {A} (k : string) (v : A) (o : list (string * A)) :
  (forall k', In k' (fst <$> o) -> In k' (fst <$> obj_set k v o)) /\
  (forall k', In k' (fst <$> obj_set k v o) -> In k' (fst <$> o) \/ k' = k) /\
  (In k (fst <$> o) \/ k = "__proto__" -> fst <$> obj_set k v o = fst <$> o) /\
  (array_index k = None ->
   exists added, fst <$> obj_set k v o = (fst <$> o) ++ added).
Proof.
  unfold obj_set. destruct (String.eqb k "__proto__") eqn:P.
  { repeat split; auto. intros _. exists []. rewrite app_nil_r. reflexivity. }
  destruct (obj_get k o) as [w|] eqn:G.
  { rewrite obj_replace_keys. repeat split; auto.
    intros _. exists []. rewrite app_nil_r. reflexivity. }
  pose proof (obj_get_None_not_In k o G) as NI.
  assert (NP : k <> "__proto__") by (intros ->; discriminate).
  destruct (array_index k) as [n|].
  - destruct (obj_insert_keys n k v o) as (l1 & l2 & H1 & H2).
    rewrite H1, H2. rewrite H1 in NI. split; [|split; [|split]].
    + intros k' H. apply in_app_or in H as [H|H]; apply in_or_app;
        [left; exact H|right; right; exact H].
    + intros k' H. apply in_app_or in H as [H|[H|H]].
      * left. apply in_or_app. left. exact H.
      * right. symmetry. exact H.
      * left. apply in_or_app. right. exact H.
    + intros [H|H]; [contradiction|contradiction].
    + discriminate.
  - rewrite fmap_app. cbn [fmap list_fmap fst]. split; [|split; [|split]].
    + intros k' H. apply in_or_app. left. exact H.
    + intros k' H. apply in_app_or in H as [H|[H|[]]];
        [left; exact H|right; symmetry; exact H].
    + intros [H|H]; contradiction.
    + intros _. exists [k]. reflexivity.
Qed.

Lemma mergeFilters_keys (newFilters fs : list (string * bool)) :
  (forall k, In k (fst <$> fs) -> In k (fst <$> mergeFilters newFilters fs)) /\
  (forall k, In k (fst <$> mergeFilters newFilters fs) ->
             In k (fst <$> fs) \/ In k (fst <$> newFilters)) /\
  ((forall k, In k (fst <$> newFilters) -> In k (fst <$> fs) \/ k = "__proto__") ->
   fst <$> mergeFilters newFilters fs = fst <$> fs) /\
  ((forall k, In k (fst <$> newFilters) -> array_index k = None) ->
   exists added, fst <$> mergeFilters newFilters fs = (fst <$> fs) ++ added).
Proof.
  unfold mergeFilters. revert fs.
  induction newFilters as [|[k b] nf IH]; intros fs; cbn [fold_left fst snd].
  - repeat split; auto. intros _. exists []. rewrite app_nil_r. reflexivity.
  - destruct (obj_set_keys k b fs) as (A1 & A2 & A3 & A4).
    destruct (IH (obj_set k b fs)) as (B1 & B2 & B3 & B4).
    rewrite fmap_cons. cbn [fst]. split; [|split; [|split]].
    + intros k' H. apply B1, A1, H.
    + intros k' H. apply B2 in H as [H|H].
      * apply A2 in H as [H|H]; [left; exact H|right; left; symmetry; exact H].
      * right. right. exact H.
    + intros Hall.
      assert (E : fst <$> obj_set k b fs = fst <$> fs)
        by (apply A3, Hall; left; reflexivity).
      rewrite B3; [exact E|]. intros k' H. rewrite E. apply Hall. right. exact H.
    + intros Hall.
      destruct (A4 (Hall k (or_introl eq_refl))) as (a1 & E1).
      destruct B4 as (a2 & E2); [intros k' H; apply Hall; right; exact H|].
      exists (a1 ++ a2). rewrite E2, E1, app_assoc. reflexivity.
Qed.

(** X17. [updateFilters] never removes a name of the filter set and adds
    only names it was given; toggling only names of the set (a toggle
    named [__proto__] is not stored) leaves the names and their order as
    they were, and new names that are not array indices are appended
    behind the names the session had. *)
Theorem updateFilters_keeps_the_filter_names
    (p : Player) (g : Snowflake) (a : nat) (q : Queue)
    (newFilters : list (string * bool)) (streamTime : Z) :
  findQueue p g = Some a ->
  store p !! a = Some q ->
  exists q',
    store (fst (updateFilters g newFilters streamTime p)) !! a = Some q' /\
    (forall k, In k (fst <$> filters q) -> In k (fst <$> filters q')) /\
    (forall k, In k (fst <$> filters q') ->
               In k (fst <$> filters q) \/ In k (fst <$> newFilters)) /\
    ((forall k, In k (fst <$> newFilters) ->
                In k (fst <$> filters q) \/ k = "__proto__") ->
     fst <$> filters q' = fst <$> filters q) /\
    ((forall k, In k (fst <$> newFilters) -> array_index k = None) ->
     exists added, fst <$> filters q' = (fst <$> filters q) ++ added).
Proof.
  intros F S. unfold updateFilters. rewrite F. cbn [fst].
  set (f := fun q0 => set_filters (mergeFilters newFilters (filters q0)) q0).
  assert (S1 : store (update a f p) !! a = Some (f q)) by (apply update_store_eq, S).
  exists (f q). split.
  { unfold _playYTDLStream. rewrite S1.
    destruct (currentStreamTime a true streamTime (update a f p)); [|exact S1].
    destruct (playing (f q)); exact S1. }
  apply mergeFilters_keys.
Qed.

Lemma updateFilters_keeps_the_filter_names_witness :
  let p' := fst (updateFilters "guild-1" [("nightcore", true); ("echo", true)] 0
                   Scenario.started) in
  exists added,
    (fun q => fst <$> filters q) <$> store p' !! 0
      = Some ((fst <$> filters_table) ++ added).
Proof.
  destruct (updateFilters_keeps_the_filter_names
              Scenario.started "guild-1" 0
              (default (Queue_new "") (store Scenario.started !! 0))
              [("nightcore", true); ("echo", true)] 0)
    as (q' & Hs & _ & _ & _ & Ha).
  - reflexivity.
  - reflexivity.
  - destruct Ha as (added & Hk).
    + intros k [<-|[<-|[]]]; reflexivity.
    + exists added. cbv zeta. rewrite Hs.
      cbn [fmap option_fmap option_map]. rewrite Hk. reflexivity.
Defined.

(** A name that is an array index is listed before the names of the
    table, as [Object.keys] does, and so is its chain. *)
Example updateFilters_lists_an_index_first :
  let p' := fst (updateFilters "guild-1" [("echo", true); ("1", true); ("8D", true)]
                   0 Scenario.started) in
  (fun q => fst <$> filters q) <$> store p' !! 0
    = Some ("1" :: (fst <$> filters_table) ++ ["echo"]) /\
  pl_encoderArgs <$> last (pipelines p') = Some ["-af"; ",apulsator=hz=0.128,"].
Proof. vm_compute. repeat split. Qed.

(** ** Across a change of track *)

(** X18. The volume survives a change of track: after [setVolume] with
    percent [v] on a session whose connection has a dispatcher, the next
    pipeline the session attaches is played and then given the gain v/200
    again, read from the stored volume. *)
Theorem volume_is_applied_to_the_next_pipeline
    (p : Player) (g : Snowflake) (a : nat) (q : Queue) (d : nat)
    (t : Track) (rest : list value) (v : Z) :
  findQueue p g = Some a ->
  store p !! a = Some q ->
  dispatcher p a = Some d ->
  repeatMode q = false ->
  tracks q = VTrack t :: rest ->
  rest <> [] ->
  let n := length (pipelines p) in
  let p1 := fst (setVolume g v p) in
  let p2 := _playTrack g false p1 in
  let p3 := timer_fires n p2 in
  calls p3 =
    calls p ++
      [(a, CSetVolumeLogarithmic (v # 200));
       (a, CPlay (url t) (encoderArgs_of (filters q)) None);
       (a, CSetVolumeLogarithmic (v # 200))] /\
  volume <$> session p3 g = Some v.
Proof.
  intros F S D R T H n p1 p2 p3.
  assert (E1 : p1 = update a (set_volume v)
                      (call a (CSetVolumeLogarithmic (v # 200)) p)).
  { unfold p1, setVolume. rewrite F, D. reflexivity. }
  destruct (update_frame a (set_volume v)
              (call a (CSetVolumeLogarithmic (v # 200)) p))
    as (_ & _ & _ & C1 & P1 & _). rewrite <- E1 in C1, P1.
  assert (F1 : findQueue p1 g = Some a).
  { rewrite E1, findQueue_update by reflexivity. exact F. }
  assert (S1 : store p1 !! a = Some (set_volume v q)).
  { rewrite E1. apply update_store_eq. exact S. }
  assert (E2 : p2 = _playTrack g false p1) by reflexivity.
  rewrite (_playTrack_advance p1 g a _ t rest false F1 S1 R T (or_intror H)) in E2.
  set (f := fun q0 => set_lastSkipped false
                        (set_tracks rest (set_playing (VTrack t) q0))) in E2.
  set (p1' := update a f p1) in E2.
  assert (S2 : store p1' !! a = Some (f (set_volume v q)))
    by (apply update_store_eq, S1).
  destruct (update_frame a f p1) as (_ & _ & _ & C2 & P2 & _).
  fold p1' in C2, P2.
  assert (F2 : findQueue p1' g = Some a).
  { unfold p1'. rewrite findQueue_update by reflexivity. exact F1. }
  cbn [filters set_volume] in E2.
  set (pl := mkPipeline a (url t) (encoderArgs_of (filters q)) None
               (Some (mkContinuation false (VTrack t) (playing (set_volume v q))))
               Requested) in E2.
  assert (L : pipelines p2 !! n = Some pl).
  { rewrite E2. cbn [pipelines with_pipelines]. apply list_lookup_middle.
    unfold n. rewrite P1. reflexivity. }
  assert (S3 : store p2 !! pl_queue pl = Some (f (set_volume v q))).
  { rewrite E2. exact S2. }
  unfold p3. rewrite (timer_fires_requested n p2 pl _ L eq_refl S3).
  split.
  - cbn [calls with_pipelines call pl_queue pl_url pl_encoderArgs pl_seek pl
           volume f set_lastSkipped set_tracks set_playing set_volume
           set_dispatcher with_dispatchers].
    rewrite E2. cbn [calls with_pipelines]. rewrite C2, C1.
    cbn [calls call]. rewrite <- !app_assoc. reflexivity.
  - unfold session.
    change (findQueue (with_pipelines _ _) g) with (findQueue p2 g).
    rewrite E2. change (findQueue (with_pipelines _ p1') g) with (findQueue p1' g).
    rewrite F2.
    cbn [mbind option_bind store with_pipelines call set_dispatcher
           with_dispatchers].
    rewrite S2. reflexivity.
Qed.

Lemma volume_is_applied_to_the_next_pipeline_witness :
  let p := Scenario.exec
             [DoSetQueue "guild-1" [VTrack Scenario.trackB; VTrack Scenario.trackC]]
             Scenario.started in
  let p3 := timer_fires 1 (_playTrack "guild-1" false
                             (fst (setVolume "guild-1" 30 p))) in
  calls p3 =
    calls p ++ [(0, CSetVolumeLogarithmic (30 # 200));
                (0, CPlay "https://youtube.test/b" [] None);
                (0, CSetVolumeLogarithmic (30 # 200))].
Proof.
  intros p.
  destruct (volume_is_applied_to_the_next_pipeline
              p "guild-1" 0 (default (Queue_new "") (store p !! 0)) 0
              Scenario.trackB [VTrack Scenario.trackC] 30)
    as (Hc & _).
  - vm_compute. reflexivity.
  - vm_compute. reflexivity.
  - vm_compute. reflexivity.
  - vm_compute. reflexivity.
  - vm_compute. reflexivity.
  - discriminate.
  - exact Hc.
Defined.

(** X19. A finish that advances emits nothing by itself; when the next
    pipeline starts, one [trackChanged] is emitted with the new track, the
    previous one and the two flags as the queue holds them at that moment:
    the skip flag is off, and the repeat flag is the one set last, also
    when [setRepeatMode] was called between the finish and the start. *)
Theorem trackChanged_is_emitted_when_the_next_track_starts
    (p : Player) (g : Snowflake) (a : nat) (q : Queue)
    (t : Track) (rest : list value) (enabled : bool) :
  findQueue p g = Some a ->
  store p !! a = Some q ->
  repeatMode q = false ->
  tracks q = VTrack t :: rest ->
  rest <> [] ->
  let n := length (pipelines p) in
  let p1 := _playTrack g false p in
  let p2 := fst (setRepeatMode g enabled p1) in
  emitted p1 = emitted p /\
  emitted (timer_fires n p1) = emitted p /\
  emitted (dispatcher_start n (timer_fires n p1))
    = emitted p ++ [(a, EvTrackChanged (VTrack t) (playing q) false false)] /\
  emitted (dispatcher_start n (timer_fires n p2))
    = emitted p ++ [(a, EvTrackChanged (VTrack t) (playing q) false enabled)].
Proof.
  intros F S R T H n p1 p2.
  assert (E1 : p1 = _playTrack g false p) by reflexivity.
  rewrite (_playTrack_advance p g a q t rest false F S R T (or_intror H)) in E1.
  set (f := fun q0 => set_lastSkipped false
                        (set_tracks rest (set_playing (VTrack t) q0))) in E1.
  set (p0 := update a f p) in E1.
  set (pl := mkPipeline _ _ _ _ _ _) in E1.
  assert (S0 : store p0 !! a = Some (f q)) by (apply update_store_eq, S).
  destruct (update_frame a f p) as (_ & _ & E0 & _ & P0 & _). fold p0 in E0, P0.
  assert (F0 : findQueue p0 g = Some a).
  { unfold p0. rewrite findQueue_update by reflexivity. exact F. }
  assert (L1 : pipelines p1 !! n = Some pl).
  { rewrite E1. cbn [pipelines with_pipelines]. apply list_lookup_middle.
    reflexivity. }
  split; [rewrite E1; exact E0|].
  split.
  { rewrite (timer_fires_requested n p1 pl (f q) L1 eq_refl)
      by (rewrite E1; exact S0).
    rewrite E1. exact E0. }
  split.
  { rewrite E1. unfold n. rewrite <- P0.
    rewrite (requested_pipeline_start p0 pl (f q) S0 eq_refl).
    cbn [pl_then pl k_firstPlay negb pl_queue k_nowPlaying k_wasPlaying
           lastSkipped repeatMode f set_lastSkipped set_tracks set_playing].
    rewrite E0, R. reflexivity. }
  assert (F1 : findQueue p1 g = Some a) by (rewrite E1; exact F0).
  assert (E2 : p2 = update a (set_repeatMode enabled) p1).
  { unfold p2, setRepeatMode. rewrite F1. reflexivity. }
  assert (E2' : p2 = with_pipelines (pipelines p ++ [pl])
                       (update a (set_repeatMode enabled) p0)).
  { rewrite E2, E1. unfold update. cbn [store with_pipelines].
    destruct (store p0 !! a); reflexivity. }
  set (p0' := update a (set_repeatMode enabled) p0) in E2'.
  assert (S0' : store p0' !! a = Some (set_repeatMode enabled (f q)))
    by (apply update_store_eq, S0).
  destruct (update_frame a (set_repeatMode enabled) p0)
    as (_ & _ & E0' & _ & P0' & _). fold p0' in E0', P0'.
  rewrite E2'. unfold n.
  replace (pipelines p) with (pipelines p0') by (rewrite P0', P0; reflexivity).
  rewrite (requested_pipeline_start p0' pl _ S0' eq_refl).
  cbn [pl_then pl k_firstPlay negb pl_queue k_nowPlaying k_wasPlaying
         lastSkipped repeatMode f set_lastSkipped set_tracks set_playing
         set_repeatMode].
  rewrite E0', E0. reflexivity.
Qed.

Lemma trackChanged_is_emitted_when_the_next_track_starts_witness :
  let p := Scenario.exec
             [DoSetQueue "guild-1" [VTrack Scenario.trackB; VTrack Scenario.trackC]]
             Scenario.started in
  let p2 := fst (setRepeatMode "guild-1" true (_playTrack "guild-1" false p)) in
  emitted (dispatcher_start 1 (timer_fires 1 p2))
    = [(0, EvTrackChanged (VTrack Scenario.trackB) (VTrack Scenario.A) false true)].
Proof.
  intros p.
  destruct (trackChanged_is_emitted_when_the_next_track_starts
              p "guild-1" 0 (default (Queue_new "") (store p !! 0))
              Scenario.trackB [VTrack Scenario.trackC] true)
    as (_ & _ & _ & He).
  - vm_compute. reflexivity.
  - vm_compute. reflexivity.
  - vm_compute. reflexivity.
  - vm_compute. reflexivity.
  - discriminate.
  - exact He.
Defined.

(** ** Runs without a skip *)

Lemma no_new_skip_run videoId ytsr sortRandom steps p :
  Forall (fun s => forall g, s <> DoSkip g) steps ->
  no_new_skip p (run videoId ytsr sortRandom steps p).
Proof.
  revert p. induction steps as [|s steps IH]; intros p H.
  - apply no_new_skip_refl.
  - apply Forall_cons in H as [Hs H]. cbn [run fold_left].
    eapply no_new_skip_trans.
    + apply (lastSkipped_only_by_skip videoId ytsr sortRandom s p Hs).
    + apply (IH _ H).
Qed.

(** X20. Whatever commands and signals a Player has handled since it was
    constructed, as long as none of them was [skip], no queue object has
    its [lastSkipped] flag set. *)
Theorem lastSkipped_is_off_without_a_skip
    (videoId : string -> option string)
    (ytsr : string -> option (list VideoItem))
    (sortRandom : list value -> list value)
    (o : PlayerOptions) (steps : list Step) :
  Forall (fun s => forall g, s <> DoSkip g) steps ->
  forall a q,
    store (run videoId ytsr sortRandom steps (Player_new o)) !! a = Some q ->
    lastSkipped q = false.
Proof.
  intros H a q S. destruct (lastSkipped q) eqn:E; [|reflexivity].
  pose proof (no_new_skip_run videoId ytsr sortRandom steps (Player_new o) H a) as N.
  rewrite S in N. simpl in N. rewrite E in N. specialize (N eq_refl).
  discriminate N.
Qed.

Lemma lastSkipped_is_off_without_a_skip_witness :
  lastSkipped <$> store
    (run Scenario.noVideoId Scenario.catalogue Scenario.keepOrder
       [DoPlay Scenario.lounge (ArgTrack Scenario.trackA) Scenario.alice;
        TimerFires 0; SignalStart 0;
        DoSetQueue "guild-1" [VTrack Scenario.trackB; VTrack Scenario.trackC];
        DoPause "guild-1"; SignalFinish 0]
       (Player_new defaultPlayerOptions)) !! 0
  = Some false.
Proof.
  match goal with
  | |- lastSkipped <$> ?r = _ =>
      assert (H : exists q, r = Some q) by (vm_compute; eexists; reflexivity)
  end.
  destruct H as [q S]. rewrite S. cbn [fmap option_fmap option_map]. f_equal.
  eapply lastSkipped_is_off_without_a_skip; [|exact S].
  repeat (constructor; [intros g; discriminate|]). constructor.
Defined.

(** ** Constructing Players *)

(** Writing options into an object, as the loop of the constructor does. *)
Lemma obj_get_fold_obj_set (options shared : list (string * bool)) (name : string) :
  NoDup (fst <$> options) ->
  obj_get name (fold_left (fun o kv => obj_set kv.1 kv.2 o) options shared) =
    if String.eqb name "__proto__" then obj_get name shared
    else match obj_get name options with
         | Some b => Some b
         | None => obj_get name shared
         end.
Proof.
  intros ND. destruct (String.eqb name "__proto__") eqn:P.
  - apply String.eqb_eq in P. subst name.
    apply (obj_get_mergeFilters_proto options shared).
  - apply (obj_get_mergeFilters options shared name ND).
    intros ->. discriminate.
Qed.

(** X21. The constructor refuses a missing client and then changes
    nothing. Otherwise it writes the options given into the one default
    options object, which every Player uses: after two constructions, an
    option reads as the second call set it, else as the first call set
    it, else as the default, for both Players; an option named
    [__proto__] is not written. *)
Theorem constructor_writes_into_the_shared_defaults
    (options1 options2 : list (string * bool)) (name : string) :
  NoDup (fst <$> options1) ->
  NoDup (fst <$> options2) ->
  (forall shared, Player_constructor false options1 shared
                  = inr "Invalid Discord client") /\
  exists shared1 shared2,
    Player_constructor true options1 defaultPlayerOptions_object = inl shared1 /\
    Player_constructor true options2 shared1 = inl shared2 /\
    obj_get name shared1 =
      (if String.eqb name "__proto__" then None
       else match obj_get name options1 with
            | Some b => Some b
            | None => obj_get name defaultPlayerOptions_object
            end) /\
    obj_get name shared2 =
      (if String.eqb name "__proto__" then None
       else match obj_get name options2 with
            | Some b => Some b
            | None => obj_get name shared1
            end).
Proof.
  intros N1 N2. split; [reflexivity|].
  eexists. eexists. split; [reflexivity|]. split; [reflexivity|].
  rewrite !obj_get_fold_obj_set by assumption.
  destruct (String.eqb name "__proto__") eqn:P; [|split; reflexivity].
  apply String.eqb_eq in P. subst name. split; reflexivity.
Qed.

Lemma constructor_writes_into_the_shared_defaults_witness :
  exists shared1 shared2,
    Player_constructor true [("leaveOnEnd", false)] defaultPlayerOptions_object
      = inl shared1 /\
    Player_constructor true [] shared1 = inl shared2 /\
    read_options shared2
      = {| leaveOnEnd := false; leaveOnStop := true; leaveOnEmpty := true |}.
Proof.
  destruct (constructor_writes_into_the_shared_defaults
              [("leaveOnEnd", false)] [] "leaveOnEnd")
    as (_ & shared1 & shared2 & H1 & H2 & _).
  - repeat constructor. intros H. inversion H.
  - constructor.
  - exists shared1, shared2. split; [exact H1|]. split; [exact H2|].
    vm_compute in H1. injection H1 as <-.
    vm_compute in H2. injection H2 as <-. reflexivity.
Defined.

(** ** Commands on a connection without a dispatcher *)

(** X22. While the connection of an existing session has no dispatcher
    (before the timer of its first pipeline has fired, or once its
    dispatcher has finished), [pause], [resume], [setVolume] and [skip]
    reject with a TypeError and change nothing; [stop] rejects too, after
    it has set the stop flag and emptied the queue, and sends nothing to
    the transport; [updateFilters] merges the toggles, requests no
    pipeline and never settles. *)
Theorem commands_reject_without_a_dispatcher
    (p : Player) (g : Snowflake) (a : nat) (q : Queue) :
  findQueue p g = Some a ->
  store p !! a = Some q ->
  dispatcher p a = None ->
  (exists message, pause g p = (p, Rejected (TypeError message))) /\
  (exists message, resume g p = (p, Rejected (TypeError message))) /\
  (forall percent,
      exists message, setVolume g percent p = (p, Rejected (TypeError message))) /\
  (exists message, skip g p = (p, Rejected (TypeError message))) /\
  (exists message, snd (stop g p) = Rejected (TypeError message)) /\
  session (fst (stop g p)) g = Some (set_tracks [] (set_stopped true q)) /\
  calls (fst (stop g p)) = calls p /\
  (forall newFilters streamTime,
      let out := updateFilters g newFilters streamTime p in
      snd out = Pending /\
      session (fst out) g
        = Some (set_filters (mergeFilters newFilters (filters q)) q) /\
      pipelines (fst out) = pipelines p /\ calls (fst out) = calls p).
Proof.
  intros F S D.
  split; [unfold pause; rewrite F, D; eexists; reflexivity|].
  split; [unfold resume; rewrite F, D; eexists; reflexivity|].
  split; [intros percent; unfold setVolume; rewrite F, D; eexists; reflexivity|].
  split; [unfold skip; rewrite F, D; eexists; reflexivity|].
  split; [unfold stop; rewrite F, D; eexists; reflexivity|].
  split.
  { unfold stop. rewrite F, D. cbn [fst].
    apply (session_update p g a q (fun q0 => set_tracks [] (set_stopped true q0)));
      [exact F|exact S|reflexivity]. }
  split.
  { unfold stop. rewrite F, D. cbn [fst]. apply update_frame. }
  intros newFilters streamTime. cbv zeta.
  rewrite (updateFilters_null_dispatcher p g a newFilters streamTime F D).
  split; [unfold updateFilters; rewrite F; reflexivity|].
  split.
  { apply (session_update p g a q
             (fun q0 => set_filters (mergeFilters newFilters (filters q0)) q0));
      [exact F|exact S|reflexivity]. }
  split; apply update_frame.
Qed.

Lemma commands_reject_without_a_dispatcher_witness :
  (exists message,
     setVolume "guild-1" 50 Scenario.requested
       = (Scenario.requested, Rejected (TypeError message))) /\
  (exists message,
     skip "guild-1" Scenario.requested
       = (Scenario.requested, Rejected (TypeError message))) /\
  stopped <$> session (fst (stop "guild-1" Scenario.requested)) "guild-1"
    = Some true.
Proof.
  destruct (commands_reject_without_a_dispatcher
              Scenario.requested "guild-1" 0
              (default (Queue_new "") (store Scenario.requested !! 0)))
    as (_ & _ & Hv & Hk & _ & Hs & _).
  - reflexivity.
  - reflexivity.
  - reflexivity.
  - split; [apply Hv|]. split; [exact Hk|]. rewrite Hs. reflexivity.
Defined.

(** The dispatcher of the connection over one track and the next: none
    after [play], the one of the first pipeline once its timer has fired,
    none between its finish and the timer of the second pipeline, then the
    one of the second pipeline. *)
Example dispatcher_over_two_tracks :
  let p0 := Scenario.exec
              [DoSetQueue "guild-1" [VTrack Scenario.trackB; VTrack Scenario.trackC]]
              Scenario.started in
  let p1 := Scenario.exec [SignalFinish 0] p0 in
  let p2 := Scenario.exec [TimerFires 1] p1 in
  dispatcher Scenario.requested 0 = None /\
  dispatcher Scenario.started 0 = Some 0 /\
  dispatcher p1 0 = None /\
  dispatcher p2 0 = Some 1.
Proof. vm_compute. repeat split. Qed.
